(** * Jump-to-link: hint labels, link location and the key selection protocol

    A shallow embedding of [src/main.ts] (the [JumpToLink] plugin class) and
    the properties of its label allocator, raw-text link locator and
    keystroke handler.

    Conventions of the embedding:
    - JS numbers that hold integers are [Z]; array lengths and string
      positions are [nat] where the code only counts with them;
    - JS strings are [string] (the inputs considered are ASCII, so a UTF-16
      code unit is one [ascii]);
    - the JS object [linkHintMap], used as a dictionary keyed by label, is a
      [gmap string LinkHintBase];
    - the plugin fields, the part of the DOM the plugin touches and the calls
      made to the host are the fields of one [World] record that every
      method takes and returns. *)

From Stdlib Require Import ZArith Ascii String List Bool Lia.
From stdpp Require Import gmap strings list fin_maps sorting.

#[local] Open Scope string_scope.
#[local] Open Scope Z_scope.

(** ** Strings as the code uses them *)

(** [Array.from(s)] and [s[j]]: the characters of [s], each as a string of
    length one. *)
Definition chars (s : string) : list string :=
  map (λ c, String c EmptyString) (list_ascii_of_string s).

(** [s.slice(0, k)] for [0 <= k]. *)
Definition slice0 (s : string) (k : Z) : string :=
  String.substring 0 (Z.to_nat k) s.

(** [Math.ceil(a / b)] for integers [a] and [b > 0]. *)
Definition ceil_div (a b : Z) : Z := - ((- a) / b).

(** [xs.includes(x)] on an array of strings. *)
Definition includes (xs : list string) (x : string) : bool :=
  existsb (String.eqb x) xs.

(** ** Label allocator: [getLinkHintLetters] *)

Module Allocator.

Definition alphabet : string := "ABCDEFGHIJKLMNOPQRSTUVWXYZ".

Definition alphabet_length : Z := Z.of_nat (String.length alphabet).

(** Lines 261-265: the number of letters set aside as prefixes. *)
Definition prefixCount (numLinkHints : Z) : Z :=
  let prefixCount :=
    ceil_div (numLinkHints - alphabet_length) (alphabet_length - 1) in
  let prefixCount := Z.max prefixCount 0 in
  Z.min prefixCount alphabet_length.

(** Line 267. *)
Definition prefixes (numLinkHints : Z) : list string :=
  "" :: chars (slice0 alphabet (prefixCount numLinkHints)).

(** Lines 272-285: the loop over [j], run on the letters that are left;
    [acc] is [linkHintLetters]. The [else] branch is the [break]. *)
Fixpoint inner_loop (numLinkHints : Z) (prefixes : list string)
    (prefix : string) (letters : list string) (acc : list string)
    : list string :=
  match letters with
  | [] => acc
  | letter :: rest =>
      if Z.of_nat (length acc) <? numLinkHints then
        if String.eqb prefix "" then
          if negb (includes prefixes letter)
          then inner_loop numLinkHints prefixes prefix rest (acc ++ [letter])
          else inner_loop numLinkHints prefixes prefix rest acc
        else
          inner_loop numLinkHints prefixes prefix rest
            (acc ++ [prefix +:+ letter])
      else acc
  end.

(** Lines 270-286: the loop over [i], run on the prefixes that are left;
    [letters] are the letters of the alphabet, over which the loop over [j]
    runs each time. *)
Fixpoint outer_loop (numLinkHints : Z) (prefixes : list string)
    (letters : list string) (todo : list string) (acc : list string)
    : list string :=
  match todo with
  | [] => acc
  | prefix :: rest =>
      outer_loop numLinkHints prefixes letters rest
        (inner_loop numLinkHints prefixes prefix letters acc)
  end.

Definition getLinkHintLetters (numLinkHints : Z) : list string :=
  let prefixes := prefixes numLinkHints in
  outer_loop numLinkHints prefixes (chars alphabet) prefixes [].

End Allocator.

(** ** Regular expressions

    The three patterns of [getSourceLinkHints] are run by a backtracking
    matcher written after the ECMAScript specification (22.2.2, pattern
    semantics): a matcher takes a state and a continuation, and repetition
    is [RepeatMatcher]. Only the constructs the three patterns use are
    present. *)

Module RegExp.

Inductive regex : Type :=
  | Empty
  | Char (c : ascii)                 (* a literal character *)
  | Dot                              (* [.] without the [s] flag *)
  | NotOneOf (cs : list ascii)       (* [[^...]] *)
  | Bol                              (* [^] without the [m] flag *)
  | Seq (r1 r2 : regex)
  | Alt (r1 r2 : regex)              (* [r1|r2] *)
  | Plus (greedy : bool) (r : regex) (* [r+] and [r+?] *)
  | Opt (r : regex)                  (* [r?] *)
  | Group (n : nat) (r : regex)      (* the [n]-th capturing group *)
  | LookBehind (r : regex).          (* [(?<=r)] *)

Fixpoint seq (rs : list regex) : regex :=
  match rs with
  | [] => Empty
  | [r] => r
  | r :: rs => Seq r (seq rs)
  end.

Definition lit (s : string) : regex :=
  seq (map Char (list_ascii_of_string s)).

Inductive direction : Type := Forward | Backward.

Record MatchState : Type := mkState {
  endIndex : nat;
  captures : gmap nat (nat * nat)    (* group number to [start, end) *)
}.

(** A matcher answers with a state, with failure, or not at all when the
    iteration bound of the model is used up. *)
Inductive MatchResult : Type :=
  | Matched (y : MatchState)
  | Failure
  | OutOfFuel.

Definition Continuation : Type := MatchState → MatchResult.

Definition is_line_terminator (ch : ascii) : bool :=
  Ascii.eqb ch "010" || Ascii.eqb ch "013".

(** CharacterSetMatcher. *)
Definition char_set_matcher (input : list ascii) (dir : direction)
    (accepts : ascii → bool) (x : MatchState) (c : Continuation)
    : MatchResult :=
  match dir with
  | Forward =>
      match input !! endIndex x with
      | Some ch =>
          if accepts ch then c (mkState (S (endIndex x)) (captures x))
          else Failure
      | None => Failure
      end
  | Backward =>
      match endIndex x with
      | O => Failure
      | S f =>
          match input !! f with
          | Some ch =>
              if accepts ch then c (mkState f (captures x)) else Failure
          | None => Failure
          end
      end
  end.

Fixpoint groups_of (r : regex) : list nat :=
  match r with
  | Seq r1 r2 | Alt r1 r2 => groups_of r1 ++ groups_of r2
  | Plus _ r | Opt r | LookBehind r => groups_of r
  | Group n r => n :: groups_of r
  | _ => []
  end.

(** Step 3 of RepeatMatcher: the groups of the repeated atom start each
    iteration undefined. *)
Definition clear_groups (gs : list nat) (x : MatchState) : MatchState :=
  mkState (endIndex x) (foldr delete (captures x) gs).

Definition or_else (z : MatchResult) (alternative : unit → MatchResult)
    : MatchResult :=
  match z with
  | Failure => alternative tt
  | _ => z
  end.

(** RepeatMatcher with min = 0 and no max, for the matcher [m] of the
    repeated atom; [clear] is step 3 for its groups. The specification
    recurses without a bound; here at most [fuel] iterations are nested. *)
Fixpoint repeat0 (m : MatchState → Continuation → MatchResult)
    (greedy : bool) (clear : MatchState → MatchState) (c : Continuation)
    (fuel : nat) (x : MatchState) : MatchResult :=
  match fuel with
  | O => OutOfFuel
  | S fuel =>
      let d : Continuation := λ y,
        if Nat.eqb (endIndex y) (endIndex x) then Failure
        else repeat0 m greedy clear c fuel y in
      if greedy
      then or_else (m (clear x) d) (λ _, c x)
      else or_else (c x) (λ _, m (clear x) d)
  end.

Fixpoint matcher (input : list ascii) (r : regex) (dir : direction)
    (x : MatchState) (c : Continuation) {struct r} : MatchResult :=
  match r with
  | Empty => c x
  | Char ch => char_set_matcher input dir (Ascii.eqb ch) x c
  | Dot => char_set_matcher input dir (λ ch, negb (is_line_terminator ch)) x c
  | NotOneOf cs =>
      char_set_matcher input dir (λ ch, negb (existsb (Ascii.eqb ch) cs)) x c
  | Bol => if Nat.eqb (endIndex x) 0 then c x else Failure
  | Seq r1 r2 =>
      match dir with
      | Forward => matcher input r1 dir x (λ y, matcher input r2 dir y c)
      | Backward => matcher input r2 dir x (λ y, matcher input r1 dir y c)
      end
  | Alt r1 r2 =>
      or_else (matcher input r1 dir x c) (λ _, matcher input r2 dir x c)
  | Plus greedy r1 =>
      (* min = 1: one iteration, then RepeatMatcher with min = 0 *)
      let clear := clear_groups (groups_of r1) in
      matcher input r1 dir (clear x)
        (repeat0 (matcher input r1 dir) greedy clear c (S (length input)))
  | Opt r1 =>
      let d : Continuation := λ y,
        if Nat.eqb (endIndex y) (endIndex x) then Failure else c y in
      or_else (matcher input r1 dir (clear_groups (groups_of r1) x) d)
              (λ _, c x)
  | Group n r1 =>
      matcher input r1 dir x (λ y,
        let range :=
          match dir with
          | Forward => (endIndex x, endIndex y)
          | Backward => (endIndex y, endIndex x)
          end in
        c (mkState (endIndex y) (<[n := range]> (captures y))))
  | LookBehind r1 =>
      match matcher input r1 Backward x Matched with
      | Matched y => c (mkState (endIndex x) (captures y))
      | Failure => Failure
      | OutOfFuel => OutOfFuel
      end
  end.

(** The result of [exec]: [null] or the match array, of which the code
    reads [index] and the groups. *)
Record ExecArray : Type := mkExec {
  index : nat;
  groups : gmap nat string
}.

Definition substring_of (input : list ascii) (range : nat * nat) : string :=
  string_of_list_ascii (take (range.2 - range.1) (drop range.1 input)).

(** RegExpBuiltinExec for a pattern with the [g] flag: try the positions
    from [lastIndex] on. [steps] counts the positions left, the end of the
    input included. Answers the match array (or [None] for [null]) and the
    new [lastIndex]. *)
Fixpoint exec_from (input : list ascii) (r : regex) (lastIndex : nat)
    (steps : nat) : option (option ExecArray * nat) :=
  match steps with
  | O => Some (None, 0%nat)
  | S steps =>
      match matcher input r Forward (mkState lastIndex ∅) Matched with
      | Matched y =>
          Some (Some (mkExec lastIndex (substring_of input <$> captures y)),
                endIndex y)
      | Failure => exec_from input r (S lastIndex) steps
      | OutOfFuel => None
      end
  end.

Definition exec (r : regex) (input : list ascii) (lastIndex : nat)
    : option (option ExecArray * nat) :=
  exec_from input r lastIndex (S (length input) - lastIndex).

End RegExp.

(** ** Hints *)

(** Modelled from the spec: the module [types] ([LinkHintType],
    [LinkHintMode], [Settings], [LinkHintBase], [PreviewLinkHint],
    [SourceLinkHint]) is imported by [main.ts] but is not part of the
    sources. The spec gives a hint as [{ letter, linkText, type }] with type
    Internal or External, to which a rendered-view hint adds [{ top, left }]
    and a raw-text hint adds [{ index }], and the presentation mode as one
    of [popovers] and [modal]. A field is an [option] where the code can
    store [undefined] in it at run time. *)
Inductive LinkHintType : Type := internal | external.

Inductive LinkHintMode : Type := popovers | modal.

Record Settings : Type := mkSettings { mode : LinkHintMode }.

Record LinkHintBase : Type := mkHint {
  letter : option string;
  linkText : option string;
  type : LinkHintType
}.

Record PreviewLinkHint : Type := mkPreviewHint {
  preview_base :> LinkHintBase;
  top : Z;
  left : Z
}.

Record SourceLinkHint : Type := mkSourceHint {
  source_base :> LinkHintBase;
  index : Z
}.

(** What JS makes of a value used as a string (a property key, an operand
    of [+]): [undefined] reads "undefined". *)
Definition js_string (v : option string) : string := default "undefined" v.

(** [Array.prototype.sort(compareFn)]: the sort is stable, and [compareFn]
    answers a positive number when its first argument goes after its
    second. With the comparators of this program (both total preorders) that
    fixes the result, which an insertion sort computes. *)
Section Sort.
Context {A : Type} (compareFn : A → A → Z).

Fixpoint sort_insert (x : A) (l : list A) : list A :=
  match l with
  | [] => [x]
  | y :: l' =>
      if 0 <? compareFn x y then y :: sort_insert x l' else x :: y :: l'
  end.

Definition sort (l : list A) : list A := foldr sort_insert [] l.
End Sort.

(** ** Raw-text locator: [getSourceLinkHints] *)

Module Source.
Import RegExp.

(** [/\[\[(.+?)(\|.+?)?\]\]/g] *)
Definition regExInternal : regex :=
  seq [ lit "[["; Group 1 (Plus false Dot);
        Opt (Group 2 (Seq (Char "|") (Plus false Dot))); lit "]]" ].

(** [/\[.+?\]\((.+?)\)/g] *)
Definition regExExternal : regex :=
  seq [ Char "["; Plus false Dot; lit "]("; Group 1 (Plus false Dot);
        Char ")" ].

(** [/(?<= |\n|^)(https?:\/\/[^ \n]+)/g] *)
Definition regExUrl : regex :=
  seq [ LookBehind (Alt (Char " ") (Alt (Char "010") Bol));
        Group 1 (seq [ lit "http"; Opt (Char "s"); lit "://";
                       Plus true (NotOneOf [" "; "010"]%char) ]) ].

(** The CodeMirror editor, of which the locator reads the text. *)
Record Editor : Type := mkEditor { getValue : string }.

(** An element of [linksWithIndex]. *)
Record IndexedLink : Type := mkLink {
  link_index : Z;
  link_type : LinkHintType;
  link_text : option string
}.

(** One of the loops [while (regExResult = re.exec(strs)) { push }], for the
    pattern [re] and the type it pushes; [lastIndex] is the pattern's own.
    The loop of the code has no bound: [None] stands for a run that is
    still going after [fuel] matches. *)
Fixpoint exec_loop (fuel : nat) (re : regex) (ty : LinkHintType)
    (strs : list ascii) (lastIndex : nat) (linksWithIndex : list IndexedLink)
    : option (list IndexedLink) :=
  match fuel with
  | O => None
  | S fuel =>
      match exec re strs lastIndex with
      | None => None
      | Some (None, _) => Some linksWithIndex
      | Some (Some regExResult, lastIndex) =>
          let linkText := groups regExResult !! 1%nat in
          exec_loop fuel re ty strs lastIndex
            (linksWithIndex
               ++ [mkLink (Z.of_nat (RegExp.index regExResult)) ty linkText])
      end
  end.

Definition scan (re : regex) (ty : LinkHintType) (strs : string)
    (linksWithIndex : list IndexedLink) : option (list IndexedLink) :=
  let input := list_ascii_of_string strs in
  exec_loop (S (length input)) re ty input 0 linksWithIndex.

Definition getSourceLinkHints (cmEditor : Editor)
    : option (list SourceLinkHint) :=
  let strs := getValue cmEditor in
  linksWithIndex ← scan regExInternal internal strs [];
  linksWithIndex ← scan regExExternal external strs linksWithIndex;
  linksWithIndex ← scan regExUrl external strs linksWithIndex;
  let linkHintLetters :=
    Allocator.getLinkHintLetters (Z.of_nat (length linksWithIndex)) in
  Some (imap (λ i linkHint,
                mkSourceHint
                  (mkHint (linkHintLetters !! i) (link_text linkHint)
                          (link_type linkHint))
                  (link_index linkHint))
             (sort (λ x y, link_index x - link_index y) linksWithIndex)).

End Source.

(** ** Rendered-view locator: [getPreviewLinkHints] *)

Module Preview.

(** An element of the chain of [offsetParent]s above an element: the view
    element itself, or another ancestor with its own offsets. The chain ends
    where [offsetParent] is [null]. *)
Inductive OffsetParent : Type :=
  | ViewEl
  | Ancestor (offsetTop offsetLeft : Z).

Record Box : Type := mkBox {
  offsetTop : Z;
  offsetLeft : Z;
  offsetParents : list OffsetParent
}.

Record AnchorEl : Type := mkAnchor {
  has_internal_link : bool;          (* [hasClass('internal-link')] *)
  dataset_href : option string;      (* [dataset['href']] *)
  href : string;
  anchor_box : Box
}.

Record EmbedEl : Type := mkEmbed {
  src : option string;               (* [getAttribute('src')] *)
  markdown_embed_link : option Box   (* [querySelector('.markdown-embed-link')] *)
}.

(** The view element, of which the locator reads the anchors and the
    embeds, in document order. *)
Record PreviewViewEl : Type := mkView {
  anchorEls : list AnchorEl;
  embedEls : list EmbedEl
}.

(** Lines 145-153 and 173-181. *)
Fixpoint walk (offsetParent : list OffsetParent) (top left : Z) : Z * Z :=
  match offsetParent with
  | [] => (top, left)
  | ViewEl :: _ => (top, left)
  | Ancestor t l :: rest => walk rest (top + t) (left + l)
  end.

Definition position_of (b : Box) : Z * Z :=
  walk (offsetParents b) (offsetTop b) (offsetLeft b).

Definition anchor_hint (anchorEl : AnchorEl) : PreviewLinkHint :=
  let linkType := if has_internal_link anchorEl then internal else external in
  let linkText :=
    match linkType with
    | internal => dataset_href anchorEl
    | external => Some (href anchorEl)
    end in
  let '(top, left) := position_of (anchor_box anchorEl) in
  mkPreviewHint (mkHint (Some "") linkText linkType) top left.

Definition truthy (v : option string) : bool :=
  match v with
  | Some s => negb (String.eqb s "")
  | None => false
  end.

Definition embed_hint (embedEl : EmbedEl) : option PreviewLinkHint :=
  let linkText := src embedEl in
  match markdown_embed_link embedEl with
  | Some linkEl =>
      if truthy linkText then
        let '(top, left) := position_of linkEl in
        Some (mkPreviewHint (mkHint (Some "") linkText internal) top left)
      else None
  | None => None
  end.

(** Lines 193-207. *)
Definition compare_position (a b : PreviewLinkHint) : Z :=
  if top b <? top a then 1
  else if top a =? top b then
    if left b <? left a then 1
    else if left a =? left b then 0
    else -1
  else -1.

Definition getPreviewLinkHints (previewViewEl : PreviewViewEl)
    : list PreviewLinkHint :=
  let linkHints :=
    (map anchor_hint (anchorEls previewViewEl)
     ++ omap embed_hint (embedEls previewViewEl))%list in
  let sortedLinkHints := sort compare_position linkHints in
  let linkHintLetters :=
    Allocator.getLinkHintLetters (Z.of_nat (length sortedLinkHints)) in
  imap (λ i (linkHint : PreviewLinkHint),
          mkPreviewHint
            (mkHint (linkHintLetters !! i) (linkText linkHint) (type linkHint))
            (top linkHint) (left linkHint))
       sortedLinkHints.

End Preview.

(** ** The plugin and the part of its environment it acts on *)

(** [String.prototype.toUpperCase] on ASCII text: the letters [a]-[z] become
    [A]-[Z] and every other character below 128 is left as it is. A
    character from 128 on is left as it is too, which is not what
    JavaScript does with each of them (U+00DF becomes [SS]); what is said
    of the upper case of an arbitrary key is said of ASCII keys. *)
Definition upper_ascii (c : ascii) : ascii :=
  let n := nat_of_ascii c in
  if (97 <=? n)%nat && (n <=? 122)%nat then ascii_of_nat (n - 32) else c.

Fixpoint toUpperCase (s : string) : string :=
  match s with
  | EmptyString => EmptyString
  | String c s' => String (upper_ascii c) (toUpperCase s')
  end.

(** The keydown event: the two fields the handler reads and the flags its
    calls set. *)
Record KeyboardEvent : Type := mkEvent {
  key : string;
  shiftKey : bool;
  defaultPrevented : bool;
  propagationStopped : bool;
  immediatePropagationStopped : bool
}.

Definition keydown (key : string) (shiftKey : bool) : KeyboardEvent :=
  mkEvent key shiftKey false false false.

Definition preventDefault (e : KeyboardEvent) : KeyboardEvent :=
  mkEvent (key e) (shiftKey e) true (propagationStopped e)
          (immediatePropagationStopped e).

Definition stopPropagation (e : KeyboardEvent) : KeyboardEvent :=
  mkEvent (key e) (shiftKey e) (defaultPrevented e) true
          (immediatePropagationStopped e).

Definition stopImmediatePropagation (e : KeyboardEvent) : KeyboardEvent :=
  mkEvent (key e) (shiftKey e) (defaultPrevented e) true true.

(** The value of the field [prefixInfo] when it is not [undefined]. *)
Module PrefixInfo.
Record t : Type := mk { prefix : string; shiftKey : bool }.
End PrefixInfo.

(** A keydown listener of the document: the closure [handleKeyDown] that one
    call of [activateLinkHints] made, with the [linkHintMap] it captured.
    Closures are told apart by the number of the call that made them. *)
Record Listener : Type := mkListener {
  closure : nat;
  linkHintMap : gmap string LinkHintBase
}.

(** The elements of the page that the selectors of the plugin can see, each
    with what it contains. *)
Inductive Placement : Type :=
  | InBody
  | InView (top left : Z)       (* in the preview element, at [top], [left] px *)
  | InEditor (index : Z).       (* a CodeMirror widget at [posFromIndex(index)] *)

Record Element : Type := mkElement {
  el_id : string;
  el_classes : list string;
  el_content : list string;
  el_placement : Placement
}.

(** The calls made to the host application. *)
Inductive HostCall : Type :=
  | openLinkText (linktext : option string) (sourcePath : string)
                 (newLeaf : bool) (active : bool)
  | openExternal (url : option string).

Record World : Type := mkWorld {
  isLinkHintActive : bool;
  prefixInfo : option PrefixInfo.t;
  settings : Settings;
  keydownListeners : list Listener;
  closures : nat;                    (* closures made so far *)
  document : list Element;
  hostCalls : list HostCall
}.

Definition set_isLinkHintActive (b : bool) (w : World) : World :=
  mkWorld b (prefixInfo w) (settings w) (keydownListeners w) (closures w)
          (document w) (hostCalls w).

Definition set_prefixInfo (p : option PrefixInfo.t) (w : World) : World :=
  mkWorld (isLinkHintActive w) p (settings w) (keydownListeners w)
          (closures w) (document w) (hostCalls w).

Definition set_settings (s : Settings) (w : World) : World :=
  mkWorld (isLinkHintActive w) (prefixInfo w) s (keydownListeners w)
          (closures w) (document w) (hostCalls w).

Definition set_document (els : list Element) (w : World) : World :=
  mkWorld (isLinkHintActive w) (prefixInfo w) (settings w)
          (keydownListeners w) (closures w) els (hostCalls w).

Definition call_host (c : HostCall) (w : World) : World :=
  mkWorld (isLinkHintActive w) (prefixInfo w) (settings w)
          (keydownListeners w) (closures w) (document w)
          (hostCalls w ++ [c]).

(** [document.addEventListener('keydown', f)] for a closure [f] made by
    this call. *)
Definition addEventListener (m : gmap string LinkHintBase) (w : World)
    : World :=
  mkWorld (isLinkHintActive w) (prefixInfo w) (settings w)
          (keydownListeners w ++ [mkListener (closures w) m])
          (S (closures w)) (document w) (hostCalls w).

Definition removeEventListener (f : Listener) (w : World) : World :=
  mkWorld (isLinkHintActive w) (prefixInfo w) (settings w)
          (filter (λ g, closure g ≠ closure f) (keydownListeners w))
          (closures w) (document w) (hostCalls w).

(** The selectors [.jl.popover] and [#jl-modal]. *)
Definition is_popover (e : Element) : bool :=
  includes (el_classes e) "jl" && includes (el_classes e) "popover".

Definition is_modal (e : Element) : bool := String.eqb (el_id e) "jl-modal".

(** [document.querySelectorAll(sel).forEach(e => e.remove())]. *)
Definition remove_all (sel : Element → bool) (w : World) : World :=
  set_document (List.filter (λ e, negb (sel e)) (document w)) w.

(** Lines 291-316: a [div] is appended to the body; in it, the container
    [#jl-modal] whose content is a line per hint. *)
Definition displayModal (linkHints : list LinkHintBase) (w : World) : World :=
  let modalEl := mkElement "" [] [] InBody in
  let container :=
    mkElement "jl-modal" ["modal-container"]
      (map (λ linkHint,
              js_string (letter linkHint) +:+ " " +:+
              js_string (linkText linkHint))
           linkHints)
      InBody in
  set_document (document w ++ [modalEl; container]) w.

(** Lines 318-328. *)
Definition displayPreviewPopovers (linkHints : list PreviewLinkHint)
    (w : World) : World :=
  set_document
    (document w
       ++ map (λ linkHint : PreviewLinkHint,
                 mkElement "" ["jl"; "popover"]
                   [default "" (letter linkHint)]
                   (InView (top linkHint) (left linkHint)))
              linkHints)
    w.

(** Lines 330-346. *)
Definition displaySourcePopovers (linkKeyMap : list SourceLinkHint)
    (w : World) : World :=
  set_document
    (document w
       ++ map (λ linkHint : SourceLinkHint,
                 mkElement "" ["jl"; "popover"]
                   [js_string (letter linkHint)]
                   (InEditor (index linkHint)))
              linkKeyMap)
    w.

(** Lines 74-82. *)
Definition handleHotkey (newLeaf : bool) (link : LinkHintBase) (w : World)
    : World :=
  match type link with
  | internal => call_host (openLinkText (linkText link) "" newLeaf true) w
  | external => call_host (openExternal (linkText link)) w
  end.

(** [x[0]] for a string that is not empty. *)
Definition first_char (x : string) : string :=
  match x with
  | EmptyString => EmptyString
  | String c _ => String c EmptyString
  end.

(** Line 90: the set of the first characters of the labels longer than one
    character. The keys of the map are the labels and, for a hint left
    without a letter, "undefined"; a key pressed is looked up in upper
    case, so no lookup finds a property that a JS object inherits. *)
Definition prefixes_of (linkHintMap : gmap string LinkHintBase)
    : gset string :=
  list_to_set
    (map first_char
       (List.filter (λ x, (1 <? String.length x)%nat)
          (elements (dom linkHintMap)))).

(** Lines 116-120. *)
Definition teardown (handleKeyDown : Listener) (w : World) : World :=
  let w := removeEventListener handleKeyDown w in
  let w := remove_all is_popover w in
  let w := remove_all is_modal w in
  let w := set_prefixInfo None w in
  set_isLinkHintActive false w.

(** Lines 108-120, for the [linkHint] looked up before. *)
Definition resolve (self : Listener) (linkHint : option LinkHintBase)
    (event : KeyboardEvent) (w : World) : KeyboardEvent * World :=
  let event := stopImmediatePropagation (stopPropagation (preventDefault event)) in
  let newLeaf :=
    match prefixInfo w with
    | Some info => PrefixInfo.shiftKey info
    | None => false
    end || shiftKey event in
  let w :=
    match linkHint with
    | Some linkHint => handleHotkey newLeaf linkHint w
    | None => w
    end in
  (event, teardown self w).

(** Lines 84-121; [self] is the closure, which the handler names when it
    removes itself. *)
Definition handleKeyDown (self : Listener) (event : KeyboardEvent)
    (w : World) : KeyboardEvent * World :=
  if String.eqb (key event) "Shift" then (event, w)
  else
    let eventKey := toUpperCase (key event) in
    let prefixes := prefixes_of (linkHintMap self) in
    match prefixInfo w with
    | Some info =>
        resolve self (linkHintMap self !! (PrefixInfo.prefix info +:+ eventKey))
                event w
    | None =>
        let linkHint := linkHintMap self !! eventKey in
        if negb (bool_decide (is_Some linkHint))
           && bool_decide (eventKey ∈ prefixes)
        then
          (stopImmediatePropagation (stopPropagation (preventDefault event)),
           set_prefixInfo
             (Some (PrefixInfo.mk eventKey (shiftKey event))) w)
        else resolve self linkHint event w
    end.

(** Lines 70-125. *)
Definition activateLinkHints (linkHints : list LinkHintBase) (w : World)
    : World :=
  let linkHintMap : gmap string LinkHintBase :=
    foldl (λ m x, <[js_string (letter x) := x]> m) ∅ linkHints in
  let w := addEventListener linkHintMap w in
  set_isLinkHintActive true w.

(** Lines 46-56. *)
Definition managePreviewLinkHints (previewViewEl : Preview.PreviewViewEl)
    (w : World) : World :=
  let linkHints := Preview.getPreviewLinkHints previewViewEl in
  if (0 <? length linkHints)%nat then
    let w :=
      match mode (settings w) with
      | modal => displayModal (map preview_base linkHints) w
      | popovers => displayPreviewPopovers linkHints w
      end in
    activateLinkHints (map preview_base linkHints) w
  else w.

(** Lines 58-68. *)
Definition manageSourceLinkHints (cmEditor : Source.Editor) (w : World)
    : option World :=
  linkHints ← Source.getSourceLinkHints cmEditor;
  Some (if (0 <? length linkHints)%nat then
          let w :=
            match mode (settings w) with
            | modal => displayModal (map source_base linkHints) w
            | popovers => displaySourcePopovers linkHints w
            end in
          activateLinkHints (map source_base linkHints) w
        else w).

(** The active view, by the [mode] of its state. *)
Inductive View : Type :=
  | preview (previewViewEl : Preview.PreviewViewEl)
  | source (cmEditor : Source.Editor)
  | other_mode.

(** Lines 30-44. *)
Definition handleJumpToLink (currentView : View) (w : World) : option World :=
  if isLinkHintActive w then Some w
  else
    match currentView with
    | preview previewViewEl => Some (managePreviewLinkHints previewViewEl w)
    | source cmEditor => manageSourceLinkHints cmEditor w
    | other_mode => Some w
    end.

(** ** Runs of the plugin *)

(** The document dispatches a keydown event to the listeners registered when
    the dispatch starts, in order; a listener removed meanwhile is passed
    over, and none is called after [stopImmediatePropagation]. *)
Fixpoint invoke (listeners : list Listener) (event : KeyboardEvent)
    (w : World) : KeyboardEvent * World :=
  match listeners with
  | [] => (event, w)
  | f :: rest =>
      if existsb (λ g, Nat.eqb (closure g) (closure f)) (keydownListeners w)
      then
        let '(event, w) := handleKeyDown f event w in
        if immediatePropagationStopped event then (event, w)
        else invoke rest event w
      else invoke rest event w
  end.

Definition dispatchKeyDown (event : KeyboardEvent) (w : World)
    : KeyboardEvent * World :=
  invoke (keydownListeners w) event w.

Definition press (key : string) (shiftKey : bool) (w : World) : World :=
  (dispatchKeyDown (keydown key shiftKey) w).2.

(** The plugin after [onload]: no session, whatever the settings loaded and
    the document. *)
Definition loaded (s : Settings) (els : list Element) : World :=
  mkWorld false None s [] 0 els [].

Inductive Action : Type :=
  | Activate (currentView : View)    (* the command [activate-jump-to-link] *)
  | KeyDown (key : string) (shiftKey : bool)
  | ChangeMode (value : LinkHintMode).  (* the dropdown of the setting tab *)

Definition step (a : Action) (w : World) : option World :=
  match a with
  | Activate currentView => handleJumpToLink currentView w
  | KeyDown key shiftKey => Some (press key shiftKey w)
  | ChangeMode value => Some (set_settings (mkSettings value) w)
  end.

Inductive reachable : World → Prop :=
  | reachable_loaded s els : reachable (loaded s els)
  | reachable_step a w w' : reachable w → step a w = Some w' → reachable w'.

(** ** Notions the properties are stated with *)

(** [x] is a strict (proper) prefix of [y]. *)
Definition strict_prefix (x y : string) : Prop :=
  ∃ z, z ≠ "" ∧ y = x +:+ z.

Definition prefix_free (labels : list string) : Prop :=
  ∀ x y, x ∈ labels → y ∈ labels → ¬ strict_prefix x y.

Fixpoint strict_prefixb (x y : string) : bool :=
  match x, y with
  | EmptyString, String _ _ => true
  | String a x', String b y' => Ascii.eqb a b && strict_prefixb x' y'
  | _, EmptyString => false
  end.

Definition prefix_freeb (labels : list string) : bool :=
  forallb (λ x, forallb (λ y, negb (strict_prefixb x y)) labels) labels.

Fixpoint nodupb (labels : list string) : bool :=
  match labels with
  | [] => true
  | x :: rest => negb (includes rest x) && nodupb rest
  end.

(** The labels one prefix contributes when nothing stops the loop, and the
    labels [prefixCount] prefixes contribute together. *)
Definition labels_under (prefixes : list string) (prefix : string)
    (letters : list string) : list string :=
  if String.eqb prefix "" then
    List.filter (λ letter, negb (includes prefixes letter)) letters
  else map (λ letter, prefix +:+ letter) letters.

Definition label_space (prefixCount : Z) : list string :=
  let prefixes := "" :: chars (slice0 Allocator.alphabet prefixCount) in
  flat_map (λ prefix, labels_under prefixes prefix (chars Allocator.alphabet))
           prefixes.

(** What is checked of the labels of [k] prefixes. *)
Definition labels_ok (k : nat) (labels : list string) : bool :=
  Nat.eqb (length labels) (26 + 25 * k) && nodupb labels
  && prefix_freeb labels.

(** The capacity of the allocator: 26 prefixes of 26 labels each. *)
Definition capacity : Z := 676.

(** The least number of characters a match of [r] takes. *)
Fixpoint min_len (r : RegExp.regex) : nat :=
  match r with
  | RegExp.Char _ | RegExp.Dot | RegExp.NotOneOf _ => 1
  | RegExp.Seq r1 r2 => min_len r1 + min_len r2
  | RegExp.Alt r1 r2 => min_len r1 `min` min_len r2
  | RegExp.Plus _ r1 | RegExp.Group _ r1 => min_len r1
  | _ => 0
  end.

(** [y] is a state of the input at least [n] characters further than [x]
    in the direction [dir]. *)
Definition ahead (input : list ascii) (dir : RegExp.direction) (n : nat)
    (x y : RegExp.MatchState) : Prop :=
  match dir with
  | RegExp.Forward =>
      (RegExp.endIndex x + n ≤ RegExp.endIndex y
       ∧ RegExp.endIndex y ≤ length input)%nat
  | RegExp.Backward => (RegExp.endIndex y + n ≤ RegExp.endIndex x)%nat
  end.

(** The answer [z] of a matcher run from [x] with the continuation [c] is a
    failure or what [c] answers at a state at least [n] characters ahead:
    in particular it is out of fuel only when [c] is. *)
Definition answers_from (input : list ascii) (dir : RegExp.direction)
    (n : nat) (x : RegExp.MatchState) (c : RegExp.Continuation)
    (z : RegExp.MatchResult) : Prop :=
  z = RegExp.Failure ∨ ∃ y, ahead input dir n x y ∧ z = c y.

(** The characters left in the direction [dir]. *)
Definition remaining (input : list ascii) (dir : RegExp.direction)
    (x : RegExp.MatchState) : nat :=
  match dir with
  | RegExp.Forward => length input - RegExp.endIndex x
  | RegExp.Backward => RegExp.endIndex x
  end.

(** The call that [handleHotkey] makes to the host for a hint. *)
Definition navigation (newLeaf : bool) (link : LinkHintBase) : HostCall :=
  match type link with
  | internal => openLinkText (linkText link) "" newLeaf true
  | external => openExternal (linkText link)
  end.

(** The states of a session whose listener is [f]: armed when no key has
    been taken yet, prefix pending when one prefix key has. *)
Definition Armed (f : Listener) (w : World) : Prop :=
  keydownListeners w = [f] ∧ prefixInfo w = None
  ∧ isLinkHintActive w = true.

Definition PrefixPending (f : Listener) (info : PrefixInfo.t) (w : World)
    : Prop :=
  keydownListeners w = [f] ∧ prefixInfo w = Some info
  ∧ isLinkHintActive w = true.


(** The lower-case form of a letter key. *)
Definition lower_ascii (c : ascii) : ascii :=
  let n := nat_of_ascii c in
  if (65 <=? n)%nat && (n <=? 90)%nat then ascii_of_nat (n + 32) else c.

(** At most one session: a listener is registered exactly while the flag is
    set, and then only one. *)
Definition single_session (w : World) : Prop :=
  (length (keydownListeners w) ≤ 1)%nat
  ∧ (isLinkHintActive w = true ↔ length (keydownListeners w) = 1%nat)
  ∧ (isLinkHintActive w = false → prefixInfo w = None).

(** Sessions used as concrete inputs. *)
Module Examples.

Definition hint_A : LinkHintBase := mkHint (Some "A") (Some "a.md") internal.
Definition hint_BA : LinkHintBase :=
  mkHint (Some "BA") (Some "ba.md") internal.

Definition idle : World := loaded (mkSettings popovers) [].

(** A hint set with the labels [A] and [BA]. *)
Definition session_A_BA : World := activateLinkHints [hint_A; hint_BA] idle.

Definition listener_A_BA : Listener :=
  mkListener 0 (<["BA" := hint_BA]> (<["A" := hint_A]> ∅)).

(** The session of [A] and [BA] after the prefix key [B], without Shift. *)
Definition pending_B : World := press "B" false session_A_BA.

Definition text : string :=
  "See [[Home]] and [ext](http://x.com) and visit https://y.com now".

End Examples.

(** ** Notions of the further properties *)

(** A label as the user types it: one or two upper-case letters. *)
Definition is_upper_letter (c : ascii) : bool :=
  let n := nat_of_ascii c in (65 <=? n)%nat && (n <=? 90)%nat.

Definition label_shape (label : string) : bool :=
  match label with
  | String a EmptyString => is_upper_letter a
  | String a (String b EmptyString) => is_upper_letter a && is_upper_letter b
  | _ => false
  end.

(** The labels of [k] prefixes written out: the letters after the first
    [k], then, for each of the first [k] letters in turn, that letter
    followed by every letter. *)
Definition labels_in_order (k : nat) : list string :=
  let letters := chars Allocator.alphabet in
  (drop k letters
   ++ flat_map (λ prefix, map (λ letter, prefix +:+ letter) letters)
               (take k letters))%list.

(** The order of the rendered-view hints: by [top], then by [left]. *)
Definition position_le (a b : Z * Z) : Prop :=
  a.1 < b.1 ∨ (a.1 = b.1 ∧ a.2 ≤ b.2).

Definition position (h : PreviewLinkHint) : Z * Z := (top h, left h).

(** A rendered-view hint without its letter. *)
Definition described (h : PreviewLinkHint)
    : option string * LinkHintType * Z * Z :=
  (linkText h, type h, top h, left h).

(** The hints of the anchors and of the embeds of a view, as the locator
    collects them before it sorts them. *)
Definition collected (previewViewEl : Preview.PreviewViewEl)
    : list PreviewLinkHint :=
  (map Preview.anchor_hint (Preview.anchorEls previewViewEl)
   ++ omap Preview.embed_hint (Preview.embedEls previewViewEl))%list.

(** A chain of offset parents that are not the view element, from their
    offsets. *)
Definition ancestors (offsets : list (Z * Z)) : list Preview.OffsetParent :=
  map (λ o, Preview.Ancestor o.1 o.2) offsets.

Definition sum_Z (zs : list Z) : Z := foldr Z.add 0 zs.

(** Further concrete inputs. *)
Definition view_two_links : Preview.PreviewViewEl :=
  Preview.mkView
    [ Preview.mkAnchor false None "https://b.org"
        (Preview.mkBox 40 8 [Preview.Ancestor 100 0; Preview.ViewEl]);
      Preview.mkAnchor true (Some "Note") "app://note"
        (Preview.mkBox 12 30 [Preview.ViewEl]) ]
    [].

Definition second_link : PreviewLinkHint :=
  mkPreviewHint (mkHint (Some "B") (Some "https://b.org") external) 140 8.

Definition hints_of_text : list SourceLinkHint :=
  [ mkSourceHint (mkHint (Some "A") (Some "Home") internal) 4;
    mkSourceHint (mkHint (Some "B") (Some "http://x.com") external) 4;
    mkSourceHint (mkHint (Some "C") (Some "https://y.com") external) 47 ].

Definition third_hint : SourceLinkHint :=
  mkSourceHint (mkHint (Some "C") (Some "https://y.com") external) 47.

(** No session: the state in which the activation command goes on to
    look for links. *)
Definition Idle (w : World) : Prop :=
  isLinkHintActive w = false ∧ keydownListeners w = [] ∧ prefixInfo w = None.

(** A keydown event that the handler has taken for itself. *)
Definition consumed (e : KeyboardEvent) : Prop :=
  defaultPrevented e = true ∧ propagationStopped e = true
  ∧ immediatePropagationStopped e = true.

(** Keys pressed one after the other, each with its Shift state. *)
Definition type_keys (keys : list (string * bool)) (w : World) : World :=
  foldl (λ w k, press k.1 k.2 w) w keys.

(** The characters of a label typed one after the other. *)
Definition type_label (label : string) (shiftKey : bool) (w : World) : World :=
  type_keys (map (λ c, (c, shiftKey)) (chars label)) w.

(** The hints that the activation command finds in a view. *)
Definition located (currentView : View) : option (list LinkHintBase) :=
  match currentView with
  | preview previewViewEl =>
      Some (map preview_base (Preview.getPreviewLinkHints previewViewEl))
  | source cmEditor =>
      map source_base <$> Source.getSourceLinkHints cmEditor
  | other_mode => Some []
  end.

(** The label that a key completes: the key in upper case, after the
    pending prefix if there is one. *)
Definition typed_label (w : World) (key : string) : string :=
  match prefixInfo w with
  | Some info => PrefixInfo.prefix info +:+ toUpperCase key
  | None => toUpperCase key
  end.

(** The Shift state that counts for the key: that of the key, or that
    recorded with the pending prefix. *)
Definition typed_shift (w : World) (shiftKey : bool) : bool :=
  match prefixInfo w with
  | Some info => PrefixInfo.shiftKey info
  | None => false
  end || shiftKey.

Definition is_overlay (e : Element) : bool := is_popover e || is_modal e.

(** The hints are labelled as the locators label them: by position, with
    the labels the allocator gives for their number. *)
Definition allocated (hints : list LinkHintBase) : Prop :=
  ∀ j h, hints !! j = Some h →
    letter h = Allocator.getLinkHintLetters (Z.of_nat (length hints)) !! j.

(** The session that the activation command opens on the text of the
    example, and the state after the key [A]. *)
Definition session_of_text : World :=
  default Examples.idle
    (handleJumpToLink (source (Source.mkEditor Examples.text)) Examples.idle).

Definition after_session : World := press "A" false session_of_text.

(** The document after the two removals of a teardown. *)
Definition cleaned (els : list Element) : list Element :=
  List.filter (λ e, negb (is_modal e))
    (List.filter (λ e, negb (is_popover e)) els).



(** The [div] that [displayModal] creates and appends to the body (lines
    292 and 304); the container [#jl-modal] is parsed into it. *)
Definition modalEl : Element := mkElement "" [] [] InBody.






(** Text of ASCII characters only, on which [toUpperCase] is that of
    JavaScript. *)
Definition is_ascii_text (s : string) : bool :=
  forallb (λ c, (nat_of_ascii c <? 128)%nat) (list_ascii_of_string s).

(** Two states with the same session: they agree on everything but the
    document and the settings. *)
Definition same_session (a b : World) : Prop :=
  isLinkHintActive a = isLinkHintActive b
  ∧ prefixInfo a = prefixInfo b
  ∧ keydownListeners a = keydownListeners b
  ∧ closures a = closures b
  ∧ hostCalls a = hostCalls b.

(** A text with [n] internal links, the session that the activation
    command opens on 27 of them, and that session after the key [a]. *)
Fixpoint text_of_links (n : nat) : string :=
  match n with
  | O => ""
  | S n => "[[n]] " +:+ text_of_links n
  end.

Definition session_of_27 : World :=
  default Examples.idle
    (handleJumpToLink (source (Source.mkEditor (text_of_links 27)))
       Examples.idle).

Definition pending_of_27 : World := press "a" false session_of_27.

(** [y] is at least [n] characters ahead of [x] and has the captures of
    [x] but for the groups [gs]. *)
Definition framed (input : list ascii) (dir : RegExp.direction) (n : nat)
    (gs : list nat) (x y : RegExp.MatchState) : Prop :=
  ahead input dir n x y
  ∧ ∀ k, k ∉ gs → RegExp.captures y !! k = RegExp.captures x !! k.

Definition answers_framed (input : list ascii) (dir : RegExp.direction)
    (n : nat) (gs : list nat) (x : RegExp.MatchState)
    (c : RegExp.Continuation) (z : RegExp.MatchResult) : Prop :=
  z = RegExp.Failure ∨ ∃ y, framed input dir n gs x y ∧ z = c y.

(** Group 1 holds a range of the input that is not empty. *)
Definition has_target (input : list ascii) (y : RegExp.MatchState) : Prop :=
  ∃ s e, RegExp.captures y !! 1%nat = Some (s, e)
         ∧ (s < e ≤ length input)%nat.

(** A pattern of which every match, run forward, ends with group 1 set to
    a range that is not empty: group 1 encloses at least one character and
    lies on the spine of the sequence, with no group 1 after it. *)
Fixpoint sets_target (r : RegExp.regex) : bool :=
  match r with
  | RegExp.Group n r1 => Nat.eqb n 1 && (1 <=? min_len r1)%nat
  | RegExp.Seq r1 r2 =>
      (sets_target r1 && negb (bool_decide (1%nat ∈ RegExp.groups_of r2)))
      || sets_target r2
  | _ => false
  end.

(** A link found in a text of [n] characters: it starts inside the text
    and its target is a string that is not empty. *)
Definition link_in_text (n : nat) (link : Source.IndexedLink) : Prop :=
  0 ≤ Source.link_index link < Z.of_nat n
  ∧ ∃ target, Source.link_text link = Some target ∧ target ≠ "".

(** An embed of which the rendered-view locator makes a hint: it has a
    [src] that is not empty and a link element. *)
Definition embed_qualifies (embedEl : Preview.EmbedEl) : bool :=
  Preview.truthy (Preview.src embedEl)
  && match Preview.markdown_embed_link embedEl with
     | Some _ => true
     | None => false
     end.

(** * Properties *)

(** ** The label allocator *)

Section AllocatorFacts.
Import Allocator.

Lemma includes_elem_of xs x : includes xs x = true ↔ x ∈ xs.
Proof.
  unfold includes. rewrite existsb_exists. split.
  - intros (y & Hy & Heq). apply String.eqb_eq in Heq. subst.
    by apply list_elem_of_In.
  - intros Hx. exists x. split; [by apply list_elem_of_In|].
    apply String.eqb_refl.
Qed.

Lemma nodupb_NoDup labels : nodupb labels = true → NoDup labels.
Proof.
  induction labels as [|x rest IH]; simpl; [constructor|].
  intros [Hx Hrest]%andb_prop. constructor; [|by apply IH].
  intros Hin%includes_elem_of. by rewrite Hin in Hx.
Qed.

Lemma strict_prefixb_complete x y :
  strict_prefix x y → strict_prefixb x y = true.
Proof.
  intros (z & Hz & ->). induction x as [|a x IH]; simpl.
  - by destruct z.
  - by rewrite Ascii.eqb_refl.
Qed.

Lemma prefix_freeb_sound labels :
  prefix_freeb labels = true → prefix_free labels.
Proof.
  unfold prefix_freeb, prefix_free. rewrite forallb_forall.
  intros Hall x y Hx%list_elem_of_In Hy%list_elem_of_In Hpre.
  specialize (Hall x Hx). rewrite forallb_forall in Hall.
  specialize (Hall y Hy). apply strict_prefixb_complete in Hpre.
  by rewrite Hpre in Hall.
Qed.

Lemma prefix_free_take (labels : list string) n :
  prefix_free labels → prefix_free (take n labels).
Proof.
  intros Hfree x y Hx Hy. apply Hfree; by eapply subseteq_take.
Qed.

Lemma NoDup_take (labels : list string) n :
  NoDup labels → NoDup (take n labels).
Proof. intros Hnd. eapply sublist_NoDup; [done | apply sublist_take]. Qed.

(** The loops emit the labels in order and stop at [numLinkHints]. *)
Lemma inner_loop_take n ps p letters acc :
  inner_loop n ps p letters acc
  = (acc ++ take (Z.to_nat (n - Z.of_nat (length acc)))
                 (labels_under ps p letters))%list.
Proof.
  revert acc. unfold labels_under.
  induction letters as [|letter rest IH]; intros acc; simpl.
  - destruct (String.eqb p ""); by rewrite take_nil, app_nil_r.
  - destruct (Z.ltb_spec (Z.of_nat (length acc)) n) as [Hlt|Hge].
    + destruct (Z.to_nat (n - Z.of_nat (length acc))) as [|k] eqn:Hk;
        [lia|].
      destruct (String.eqb p "").
      * destruct (includes ps letter); simpl.
        -- by rewrite IH, Hk.
        -- rewrite IH, length_app. simpl. rewrite <- app_assoc. simpl.
           do 3 f_equal. lia.
      * rewrite IH, length_app. simpl. rewrite <- app_assoc. simpl.
        do 3 f_equal. lia.
    + replace (Z.to_nat (n - Z.of_nat (length acc))) with 0%nat by lia.
      by rewrite take_0, app_nil_r.
Qed.

Lemma outer_loop_take n ps letters todo acc :
  outer_loop n ps letters todo acc
  = (acc ++ take (Z.to_nat (n - Z.of_nat (length acc)))
                 (flat_map (λ p, labels_under ps p letters) todo))%list.
Proof.
  revert acc. induction todo as [|p rest IH]; intros acc; simpl.
  - by rewrite take_nil, app_nil_r.
  - rewrite IH, inner_loop_take, take_app, <- app_assoc. do 2 f_equal.
    rewrite length_app, length_take. f_equal. lia.
Qed.

Lemma getLinkHintLetters_take n :
  getLinkHintLetters n = take (Z.to_nat n) (label_space (prefixCount n)).
Proof.
  unfold getLinkHintLetters, label_space, prefixes.
  rewrite outer_loop_take, app_nil_l.
  change (Z.of_nat (@length string [])) with 0. rewrite Z.sub_0_r.
  reflexivity.
Qed.

Lemma prefixCount_range n : 0 ≤ prefixCount n ≤ 26.
Proof.
  unfold prefixCount, ceil_div. change alphabet_length with 26. lia.
Qed.

Lemma label_space_checked :
  forallb (λ k, labels_ok k (label_space (Z.of_nat k))) (seq 0 27) = true.
Proof. vm_compute. reflexivity. Qed.

Lemma labels_ok_sound labels k :
  labels_ok k labels = true →
  length labels = (26 + 25 * k)%nat ∧ NoDup labels ∧ prefix_free labels.
Proof.
  intros [[Hlen Hnodup]%andb_prop Hfree]%andb_prop.
  apply Nat.eqb_eq in Hlen.
  split; [done|]. split; [by apply nodupb_NoDup | by apply prefix_freeb_sound].
Qed.

(** A check of the 27 prefix counts covers every count in range. The
    family of label lists is a variable here, so that nothing unfolds it. *)
Lemma checked_in_range (space : Z → list string) :
  forallb (λ k, labels_ok k (space (Z.of_nat k))) (seq 0 27) = true →
  ∀ p, 0 ≤ p ≤ 26 →
    Z.of_nat (length (space p)) = 26 + 25 * p
    ∧ NoDup (space p) ∧ prefix_free (space p).
Proof.
  intros Hall p Hp. rewrite forallb_forall in Hall.
  specialize (Hall (Z.to_nat p)). rewrite Z2Nat.id in Hall by lia.
  destruct (labels_ok_sound (space p) (Z.to_nat p)) as (Hlen & Hnodup & Hfree).
  - apply Hall, in_seq. lia.
  - split; [lia | done].
Qed.

Lemma label_space_facts n :
  Z.of_nat (length (label_space (prefixCount n))) = 26 + 25 * prefixCount n
  ∧ NoDup (label_space (prefixCount n))
  ∧ prefix_free (label_space (prefixCount n)).
Proof.
  exact (checked_in_range label_space label_space_checked (prefixCount n)
           (prefixCount_range n)).
Qed.

Lemma prefixCount_enough n :
  Z.min n (26 + 25 * prefixCount n) = Z.min n capacity.
Proof.
  unfold prefixCount, ceil_div, capacity. change alphabet_length with 26.
  change (26 - 1) with 25. Z.to_euclidean_division_equations. lia.
Qed.

End AllocatorFacts.

Section AllocatorClaims.
Import Allocator.

Lemma prefixCount_small n : n ≤ 26 → prefixCount n = 0.
Proof.
  unfold prefixCount, ceil_div. change alphabet_length with 26.
  change (26 - 1) with 25. Z.to_euclidean_division_equations. lia.
Qed.

Lemma label_space_0 :
  label_space 0
  = ["A"; "B"; "C"; "D"; "E"; "F"; "G"; "H"; "I"; "J"; "K"; "L"; "M";
     "N"; "O"; "P"; "Q"; "R"; "S"; "T"; "U"; "V"; "W"; "X"; "Y"; "Z"].
Proof. vm_compute. reflexivity. Qed.

Example getLinkHintLetters_3 : getLinkHintLetters 3 = ["A"; "B"; "C"].
Proof. vm_compute. reflexivity. Qed.

Example getLinkHintLetters_28 :
  drop 24 (getLinkHintLetters 28) = ["Z"; "AA"; "AB"; "AC"].
Proof. vm_compute. reflexivity. Qed.

Example getLinkHintLetters_52 :
  take 2 (getLinkHintLetters 52) = ["C"; "D"]
  ∧ drop 49 (getLinkHintLetters 52) = ["AZ"; "BA"; "BB"].
Proof. split; vm_compute; reflexivity. Qed.

(** C2. For every non-negative integer [n], [getLinkHintLetters n] returns
    exactly [min n 676] labels, and they are pairwise distinct; so it returns
    [n] distinct labels for [n] in [0, 676], and fewer labels than requested
    for [n > 676]. *)
Theorem getLinkHintLetters_count_distinct (n : Z) :
  0 ≤ n →
  Z.of_nat (length (getLinkHintLetters n)) = Z.min n capacity
  ∧ NoDup (getLinkHintLetters n)
  ∧ (n ≤ capacity → Z.of_nat (length (getLinkHintLetters n)) = n)
  ∧ (capacity < n → Z.of_nat (length (getLinkHintLetters n)) < n).
Proof.
  intros Hn. rewrite getLinkHintLetters_take.
  destruct (label_space_facts n) as (Hlen & Hnodup & _).
  pose proof (prefixCount_enough n) as Henough.
  revert Hlen Hnodup. generalize (label_space (prefixCount n)).
  intros labels Hlen Hnodup.
  assert (Z.of_nat (length (take (Z.to_nat n) labels)) = Z.min n capacity)
    as Hcount by (rewrite length_take; lia).
  split; [done|]. split; [by apply NoDup_take|]. lia.
Qed.

Lemma getLinkHintLetters_count_distinct_witness :
  0 ≤ 28
  ∧ (Z.of_nat (length (getLinkHintLetters 28)) = Z.min 28 capacity
     ∧ NoDup (getLinkHintLetters 28)
     ∧ (28 ≤ capacity → Z.of_nat (length (getLinkHintLetters 28)) = 28)
     ∧ (capacity < 28 → Z.of_nat (length (getLinkHintLetters 28)) < 28)).
Proof.
  split; [lia | apply (getLinkHintLetters_count_distinct 28); lia].
Defined.

Lemma allocated_prefix_free n : prefix_free (getLinkHintLetters n).
Proof.
  rewrite getLinkHintLetters_take.
  destruct (label_space_facts n) as (_ & _ & Hfree).
  revert Hfree. generalize (label_space (prefixCount n)).
  intros labels Hfree. by apply prefix_free_take.
Qed.

(** A label the allocator gives is never the first key of a longer label
    it gives: the condition under which a prefix key is taken as a prefix
    holds in every session the plugin itself sets up. *)
Lemma allocated_prefix_is_no_label n label :
  label ∈ getLinkHintLetters n → (1 < String.length label)%nat →
  first_char label ∉ getLinkHintLetters n.
Proof.
  intros Hlabel Hlen Hfirst.
  apply (allocated_prefix_free n (first_char label) label Hfirst Hlabel).
  destruct label as [|a [|b rest]]; simpl in Hlen; [lia | lia |].
  exists (String b rest). by split.
Qed.

(** C3. For every integer [n] (non-negative or not), no label that
    [getLinkHintLetters n] returns is a strict prefix of another label it
    returns. *)
Theorem getLinkHintLetters_prefix_free (n : Z) (x y : string) :
  x ∈ getLinkHintLetters n → y ∈ getLinkHintLetters n → ¬ strict_prefix x y.
Proof. apply allocated_prefix_free. Qed.

Lemma getLinkHintLetters_prefix_free_witness :
  "B" ∈ getLinkHintLetters 28 ∧ "AB" ∈ getLinkHintLetters 28
  ∧ ¬ strict_prefix "B" "AB".
Proof.
  assert ("B" ∈ getLinkHintLetters 28) as HB
    by (apply list_elem_of_In; vm_compute; tauto).
  assert ("AB" ∈ getLinkHintLetters 28) as HAB
    by (apply list_elem_of_In; vm_compute; tauto).
  split; [exact HB|]. split; [exact HAB|].
  exact (getLinkHintLetters_prefix_free 28 "B" "AB" HB HAB).
Defined.

(** C9. For every [n] with [0 <= n <= 26], [getLinkHintLetters n] is the
    first [n] single letters of the upper-case alphabet, in alphabet
    order. *)
Theorem getLinkHintLetters_single_letters (n : Z) :
  0 ≤ n ≤ 26 →
  getLinkHintLetters n
  = take (Z.to_nat n)
      ["A"; "B"; "C"; "D"; "E"; "F"; "G"; "H"; "I"; "J"; "K"; "L"; "M";
       "N"; "O"; "P"; "Q"; "R"; "S"; "T"; "U"; "V"; "W"; "X"; "Y"; "Z"].
Proof.
  intros [_ Hn]. rewrite getLinkHintLetters_take, prefixCount_small by done.
  by rewrite label_space_0.
Qed.

Lemma getLinkHintLetters_single_letters_witness :
  0 ≤ 5 ≤ 26
  ∧ getLinkHintLetters 5
    = take (Z.to_nat 5)
        ["A"; "B"; "C"; "D"; "E"; "F"; "G"; "H"; "I"; "J"; "K"; "L"; "M";
         "N"; "O"; "P"; "Q"; "R"; "S"; "T"; "U"; "V"; "W"; "X"; "Y"; "Z"].
Proof.
  split; [lia | apply (getLinkHintLetters_single_letters 5); lia].
Defined.

End AllocatorClaims.

(** ** The keystroke handler *)

Section HandlerFacts.

Lemma hostCalls_handleHotkey newLeaf link w :
  hostCalls (handleHotkey newLeaf link w)
  = (hostCalls w ++ [navigation newLeaf link])%list.
Proof. unfold handleHotkey, navigation. by destruct (type link). Qed.

Lemma handleKeyDown_Shift f event w :
  key event = "Shift" → handleKeyDown f event w = (event, w).
Proof. intros Hkey. unfold handleKeyDown. by rewrite Hkey. Qed.

Lemma invoke_Shift listeners event w :
  key event = "Shift" → immediatePropagationStopped event = false →
  invoke listeners event w = (event, w).
Proof.
  intros Hkey Hstop. induction listeners as [|f rest IH]; simpl; [done|].
  rewrite handleKeyDown_Shift, Hstop, IH by done.
  by destruct (existsb _ _).
Qed.

(** With one listener registered, a key press is one call of it. *)
Lemma press_single f key shiftKey w :
  keydownListeners w = [f] →
  press key shiftKey w = (handleKeyDown f (keydown key shiftKey) w).2.
Proof.
  intros Hf. unfold press, dispatchKeyDown. rewrite Hf. simpl.
  rewrite Hf. simpl. rewrite Nat.eqb_refl. simpl.
  destruct (handleKeyDown f _ w) as [event w'].
  by destruct (immediatePropagationStopped event).
Qed.

Lemma press_idle key shiftKey w :
  keydownListeners w = [] → press key shiftKey w = w.
Proof. intros Hf. unfold press, dispatchKeyDown. by rewrite Hf. Qed.

Lemma keydownListeners_teardown f w :
  keydownListeners w = [f] → keydownListeners (teardown f w) = [].
Proof.
  intros Hf. unfold teardown. simpl. rewrite Hf.
  rewrite filter_cons, filter_nil. by case_decide.
Qed.


Lemma hostCalls_teardown f w : hostCalls (teardown f w) = hostCalls w.
Proof. reflexivity. Qed.

Lemma resolve_world f linkHint event w :
  (resolve f linkHint event w).2
  = teardown f
      match linkHint with
      | Some link =>
          handleHotkey
            (match prefixInfo w with
             | Some info => PrefixInfo.shiftKey info
             | None => false
             end || shiftKey event) link w
      | None => w
      end.
Proof. reflexivity. Qed.

(** The prefixes are the first characters of the labels longer than one. *)
Lemma elem_of_prefixes_of (m : gmap string LinkHintBase) k :
  k ∈ prefixes_of m
  ↔ ∃ x, is_Some (m !! x) ∧ (1 < String.length x)%nat ∧ first_char x = k.
Proof.
  unfold prefixes_of. rewrite elem_of_list_to_set, list_elem_of_In, in_map_iff.
  split.
  - intros (x & Hk & [Hx Hlen]%filter_In). exists x.
    apply list_elem_of_In, elem_of_elements, elem_of_dom in Hx.
    apply Nat.ltb_lt in Hlen. done.
  - intros (x & Hx & Hlen & Hk). exists x. split; [done|].
    apply filter_In. split; [|by apply Nat.ltb_lt].
    by apply list_elem_of_In, elem_of_elements, elem_of_dom.
Qed.

(** From the armed state, a key that is no label but starts one is recorded
    with its Shift state, and the session goes on. *)
Lemma handleKeyDown_prefix f event w :
  key event ≠ "Shift" → prefixInfo w = None →
  linkHintMap f !! toUpperCase (key event) = None →
  toUpperCase (key event) ∈ prefixes_of (linkHintMap f) →
  (handleKeyDown f event w).2
  = set_prefixInfo
      (Some (PrefixInfo.mk (toUpperCase (key event)) (shiftKey event))) w.
Proof.
  intros Hkey Hinfo Hnone Hprefix. unfold handleKeyDown.
  apply String.eqb_neq in Hkey. rewrite Hkey, Hinfo, Hnone.
  rewrite (bool_decide_eq_false_2 (is_Some None)) by (by intros [? ?]).
  by rewrite bool_decide_eq_true_2.
Qed.

(** With a prefix recorded, any key but Shift resolves the session. *)
Lemma handleKeyDown_pending f event info w :
  key event ≠ "Shift" → prefixInfo w = Some info →
  (handleKeyDown f event w).2
  = teardown f
      match linkHintMap f !! (PrefixInfo.prefix info
                              +:+ toUpperCase (key event)) with
      | Some link =>
          handleHotkey (PrefixInfo.shiftKey info || shiftKey event) link w
      | None => w
      end.
Proof.
  intros Hkey Hinfo. unfold handleKeyDown.
  apply String.eqb_neq in Hkey. rewrite Hkey, Hinfo, resolve_world.
  by rewrite Hinfo.
Qed.

(** From the armed state, a key that is a label, or that starts none,
    resolves the session. *)
Lemma handleKeyDown_armed f event w :
  key event ≠ "Shift" → prefixInfo w = None →
  is_Some (linkHintMap f !! toUpperCase (key event))
  ∨ toUpperCase (key event) ∉ prefixes_of (linkHintMap f) →
  (handleKeyDown f event w).2
  = teardown f
      match linkHintMap f !! toUpperCase (key event) with
      | Some link => handleHotkey (shiftKey event) link w
      | None => w
      end.
Proof.
  intros Hkey Hinfo Hcase. unfold handleKeyDown.
  apply String.eqb_neq in Hkey. rewrite Hkey, Hinfo.
  destruct Hcase as [Hsome|Hprefix].
  - rewrite bool_decide_eq_true_2 by done. cbn [negb andb].
    by rewrite resolve_world, Hinfo.
  - rewrite (bool_decide_eq_false_2 (_ ∈ _)) by done.
    rewrite andb_false_r. by rewrite resolve_world, Hinfo.
Qed.

End HandlerFacts.

Section HandlerClaims.
Import Examples.

Lemma key_char_not_Shift c : String c "" ≠ "Shift".
Proof. intros H. inversion H. Qed.

Lemma upper_lower_ascii c : upper_ascii (lower_ascii c) = upper_ascii c.
Proof. destruct c as [[] [] [] [] [] [] [] []]; reflexivity. Qed.

Lemma upper_upper_ascii c : upper_ascii (upper_ascii c) = upper_ascii c.
Proof. destruct c as [[] [] [] [] [] [] [] []]; reflexivity. Qed.

Lemma keydownListeners_handleHotkey newLeaf link w :
  keydownListeners (handleHotkey newLeaf link w) = keydownListeners w.
Proof. unfold handleHotkey. by destruct (type link). Qed.

Lemma Armed_session_A_BA : Armed listener_A_BA session_A_BA.
Proof. repeat split; vm_compute; reflexivity. Qed.

Lemma PrefixPending_pending_B :
  PrefixPending listener_A_BA (PrefixInfo.mk "B" false) pending_B.
Proof. repeat split; vm_compute; reflexivity. Qed.

(** C8. A keydown event whose key is exactly [Shift] changes nothing: the
    dispatch leaves the event unconsumed and the whole state as it was,
    whatever the state of the session, and a key pressed afterwards is
    handled as if the Shift event had not occurred. *)
Theorem shift_key_is_ignored (w : World) (shiftKey : bool) :
  dispatchKeyDown (keydown "Shift" shiftKey) w
  = (keydown "Shift" shiftKey, w)
  ∧ ∀ event, dispatchKeyDown event (press "Shift" shiftKey w)
             = dispatchKeyDown event w.
Proof.
  assert (dispatchKeyDown (keydown "Shift" shiftKey) w
          = (keydown "Shift" shiftKey, w)) as Hsame
    by (by apply invoke_Shift).
  split; [done|]. intros event. unfold press. by rewrite Hsame.
Qed.

(** C10. With a prefix pending, the key of the second keystroke is put in
    upper case before it is appended to the recorded prefix and looked up:
    typing a character in lower case has the effect of typing it in upper
    case, and when the prefix followed by the upper-case character is a
    label of the map, either keystroke opens the hint of that label. *)
Theorem second_key_is_upper_cased (f : Listener) (info : PrefixInfo.t)
    (w : World) (c : ascii) (shiftLower shiftUpper : bool) :
  PrefixPending f info w →
  press (String (lower_ascii c) "") shiftLower w
  = press (String (upper_ascii c) "") shiftLower w
  ∧ ∀ link,
      linkHintMap f !! (PrefixInfo.prefix info +:+ String (upper_ascii c) "")
      = Some link →
      hostCalls (press (String (lower_ascii c) "") shiftLower w)
      = (hostCalls w
           ++ [navigation (PrefixInfo.shiftKey info || shiftLower) link])%list
      ∧ hostCalls (press (String (upper_ascii c) "") shiftUpper w)
        = (hostCalls w
             ++ [navigation (PrefixInfo.shiftKey info || shiftUpper) link])%list.
Proof.
  intros (Hf & Hinfo & _).
  rewrite !(press_single f) by done.
  rewrite !(handleKeyDown_pending f _ info)
    by (done || apply key_char_not_Shift).
  cbn [key keydown shiftKey toUpperCase].
  rewrite upper_lower_ascii, upper_upper_ascii. split; [done|].
  intros link ->. by rewrite !hostCalls_teardown, !hostCalls_handleHotkey.
Qed.

Lemma second_key_is_upper_cased_witness :
  PrefixPending listener_A_BA (PrefixInfo.mk "B" false) pending_B
  ∧ press (String (lower_ascii "A") "") false pending_B
    = press (String (upper_ascii "A") "") false pending_B
  ∧ ∀ link,
      linkHintMap listener_A_BA !! ("B" +:+ String (upper_ascii "A") "")
      = Some link →
      hostCalls (press (String (lower_ascii "A") "") false pending_B)
      = (hostCalls pending_B ++ [navigation (false || false) link])%list
      ∧ hostCalls (press (String (upper_ascii "A") "") true pending_B)
        = (hostCalls pending_B ++ [navigation (false || true) link])%list.
Proof.
  split; [exact PrefixPending_pending_B|].
  exact (second_key_is_upper_cased listener_A_BA (PrefixInfo.mk "B" false)
           pending_B "A" false true PrefixPending_pending_B).
Defined.

(** The labels of the example: [a] and [A] after the prefix [B] both open
    the hint [BA]. *)
Example second_key_a_or_A :
  hostCalls (press "a" false pending_B) = [openLinkText (Some "ba.md") "" false true]
  ∧ hostCalls (press "A" false pending_B)
    = [openLinkText (Some "ba.md") "" false true].
Proof. split; vm_compute; reflexivity. Qed.

(** C1, as the code has it. For a session resolved through a prefix (the
    first keystroke is recorded as a prefix, the second completes a label),
    the first keystroke records its [shiftKey], and the flag passed to
    [handleHotkey] is the disjunction of the recorded [shiftKey] and the
    [shiftKey] of the second keystroke. *)
Theorem prefix_path_new_leaf (f : Listener) (w : World) (key1 key2 : string)
    (shift1 shift2 : bool) (link : LinkHintBase) :
  Armed f w → key1 ≠ "Shift" → key2 ≠ "Shift" →
  linkHintMap f !! toUpperCase key1 = None →
  toUpperCase key1 ∈ prefixes_of (linkHintMap f) →
  linkHintMap f !! (toUpperCase key1 +:+ toUpperCase key2) = Some link →
  prefixInfo (press key1 shift1 w)
  = Some (PrefixInfo.mk (toUpperCase key1) shift1)
  ∧ hostCalls (press key2 shift2 (press key1 shift1 w))
    = (hostCalls w ++ [navigation (shift1 || shift2) link])%list.
Proof.
  intros (Hf & Hinfo & _) Hkey1 Hkey2 Hnone Hprefix Hlink.
  rewrite (press_single f key1) by done.
  rewrite handleKeyDown_prefix by done. split; [done|].
  rewrite (press_single f key2) by done.
  rewrite (handleKeyDown_pending f _ (PrefixInfo.mk (toUpperCase key1) shift1))
    by done.
  cbn [key keydown shiftKey PrefixInfo.prefix PrefixInfo.shiftKey].
  rewrite Hlink. by rewrite hostCalls_teardown, hostCalls_handleHotkey.
Qed.

Lemma prefix_path_new_leaf_witness :
  Armed listener_A_BA session_A_BA
  ∧ "b" ≠ "Shift" ∧ "a" ≠ "Shift"
  ∧ linkHintMap listener_A_BA !! toUpperCase "b" = None
  ∧ toUpperCase "b" ∈ prefixes_of (linkHintMap listener_A_BA)
  ∧ linkHintMap listener_A_BA !! (toUpperCase "b" +:+ toUpperCase "a")
    = Some hint_BA
  ∧ prefixInfo (press "b" true session_A_BA)
    = Some (PrefixInfo.mk (toUpperCase "b") true)
  ∧ hostCalls (press "a" false (press "b" true session_A_BA))
    = (hostCalls session_A_BA ++ [navigation (true || false) hint_BA])%list.
Proof.
  assert ("b" ≠ "Shift") as Hb by discriminate.
  assert ("a" ≠ "Shift") as Ha by discriminate.
  assert (linkHintMap listener_A_BA !! toUpperCase "b" = None) as Hnone
    by (vm_compute; reflexivity).
  assert (toUpperCase "b" ∈ prefixes_of (linkHintMap listener_A_BA))
    as Hprefix by (apply (bool_decide_unpack _); vm_compute; exact I).
  assert (linkHintMap listener_A_BA !! (toUpperCase "b" +:+ toUpperCase "a")
          = Some hint_BA) as Hlink by (vm_compute; reflexivity).
  split; [exact Armed_session_A_BA|]. split; [exact Hb|]. split; [exact Ha|].
  split; [exact Hnone|]. split; [exact Hprefix|]. split; [exact Hlink|].
  exact (prefix_path_new_leaf listener_A_BA session_A_BA "b" "a" true false
           hint_BA Armed_session_A_BA Hb Ha Hnone Hprefix Hlink).
Defined.

(** C1 as stated fails: the prefix key [B] is pressed without Shift, so
    [false] is recorded, and [A] is then pressed with Shift; the hint [BA]
    is opened with [newLeaf = true], not with the recorded [false]. *)
Lemma second_key_shift_counts :
  Armed listener_A_BA session_A_BA
  ∧ prefixInfo (press "B" false session_A_BA)
    = Some (PrefixInfo.mk "B" false)
  ∧ hostCalls (press "A" true (press "B" false session_A_BA))
    = [openLinkText (Some "ba.md") "" true true]
  ∧ hostCalls (press "A" true (press "B" false session_A_BA))
    ≠ [navigation false hint_BA].
Proof.
  split; [exact Armed_session_A_BA|].
  split; [vm_compute; reflexivity|].
  split; [vm_compute; reflexivity|].
  vm_compute. discriminate.
Qed.



End HandlerClaims.

(** ** One session at a time *)

Section SessionClaims.
Import Examples.

Lemma single_session_loaded s els : single_session (loaded s els).
Proof. unfold single_session. simpl. split; [lia|]. split; [|done]. done. Qed.

Lemma single_session_idle w :
  single_session w → isLinkHintActive w = false → keydownListeners w = [].
Proof.
  intros (Hle & Hiff & _) Hidle.
  destruct (keydownListeners w) as [|f [|g rest]]; [done| |simpl in Hle; lia].
  destruct Hiff as [_ Hactive]. rewrite Hactive in Hidle; done.
Qed.

Lemma single_session_active w :
  single_session w → isLinkHintActive w = true →
  ∃ f, keydownListeners w = [f].
Proof.
  intros (_ & [Hone _] & _) Hactive. specialize (Hone Hactive).
  destruct (keydownListeners w) as [|f [|g rest]]; try done. by exists f.
Qed.

Lemma single_session_activateLinkHints linkHints w :
  keydownListeners w = [] → single_session (activateLinkHints linkHints w).
Proof.
  intros Hnone. unfold single_session, activateLinkHints. simpl.
  rewrite Hnone. simpl. split; [lia|]. done.
Qed.

Lemma single_session_teardown f w :
  keydownListeners w = [f] → single_session (teardown f w).
Proof.
  intros Hf. unfold single_session.
  rewrite keydownListeners_teardown by done. simpl.
  split; [lia|]. split; [|done]. split; done.
Qed.

Lemma single_session_handleKeyDown f event w :
  single_session w → keydownListeners w = [f] →
  single_session (handleKeyDown f event w).2.
Proof.
  intros Hinv Hf.
  destruct (decide (key event = "Shift")) as [Hshift|Hkey].
  { by rewrite handleKeyDown_Shift. }
  destruct (prefixInfo w) as [info|] eqn:Hinfo.
  { rewrite (handleKeyDown_pending f event info) by done.
    apply single_session_teardown.
    destruct (linkHintMap f !! _); [|done].
    by rewrite keydownListeners_handleHotkey. }
  destruct (linkHintMap f !! toUpperCase (key event)) as [link|] eqn:Hlink.
  { rewrite handleKeyDown_armed, Hlink by (rewrite ?Hlink; eauto).
    apply single_session_teardown.
    by rewrite keydownListeners_handleHotkey. }
  destruct (decide (toUpperCase (key event) ∈ prefixes_of (linkHintMap f)))
    as [Hprefix|Hprefix].
  - rewrite handleKeyDown_prefix by done.
    destruct Hinv as (Hle & Hiff & Hidle). unfold single_session. simpl.
    split; [done|]. split; [done|].
    intros Hactive. destruct Hiff as [_ Hone].
    rewrite Hf in Hone. rewrite Hone in Hactive; done.
  - rewrite handleKeyDown_armed, Hlink by auto.
    by apply single_session_teardown.
Qed.

Lemma single_session_step a w w' :
  single_session w → step a w = Some w' → single_session w'.
Proof.
  intros Hinv Hstep. destruct a as [currentView|key shiftKey|value];
    simpl in Hstep.
  - unfold handleJumpToLink in Hstep.
    destruct (isLinkHintActive w) eqn:Hactive; [by simplify_eq|].
    pose proof (single_session_idle w Hinv Hactive) as Hnone.
    destruct currentView as [previewViewEl|cmEditor|].
    + simplify_eq. unfold managePreviewLinkHints.
      destruct (0 <? length _)%nat; [|done].
      apply single_session_activateLinkHints.
      by destruct (mode (settings w)).
    + unfold manageSourceLinkHints in Hstep.
      destruct (Source.getSourceLinkHints cmEditor) as [linkHints|];
        [|done].
      simpl in Hstep. simplify_eq.
      destruct (0 <? length _)%nat; [|done].
      apply single_session_activateLinkHints.
      by destruct (mode (settings w)).
    + by simplify_eq.
  - simplify_eq. destruct (isLinkHintActive w) eqn:Hactive.
    + destruct (single_session_active w Hinv Hactive) as [f Hf].
      rewrite (press_single f) by done.
      by apply single_session_handleKeyDown.
    + by rewrite press_idle by (by apply single_session_idle).
  - by simplify_eq.
Qed.

Lemma single_session_reachable w : reachable w → single_session w.
Proof.
  induction 1 as [s els|a w w' _ IH Hstep].
  - apply single_session_loaded.
  - by eapply single_session_step.
Qed.

(** C6. While the active flag is set, the activation command does nothing:
    the state it returns is the state it was given, with no listener and no
    hint set added. And in every state the plugin can reach there is at most
    one keydown listener, registered exactly while the flag is set. *)
Theorem activation_while_active_is_noop :
  (∀ currentView w,
     isLinkHintActive w = true → handleJumpToLink currentView w = Some w)
  ∧ (∀ w, reachable w →
       (length (keydownListeners w) ≤ 1)%nat
       ∧ (isLinkHintActive w = true ↔ length (keydownListeners w) = 1%nat)).
Proof.
  split.
  - intros currentView w Hactive. unfold handleJumpToLink. by rewrite Hactive.
  - intros w Hw. destruct (single_session_reachable w Hw) as (Hle & Hiff & _).
    done.
Qed.

Lemma activation_while_active_is_noop_witness :
  isLinkHintActive session_A_BA = true
  ∧ handleJumpToLink (source (Source.mkEditor text)) session_A_BA
    = Some session_A_BA.
Proof.
  assert (isLinkHintActive session_A_BA = true) as Hactive by reflexivity.
  split; [exact Hactive|].
  exact (proj1 activation_while_active_is_noop
           (source (Source.mkEditor text)) session_A_BA Hactive).
Defined.

(** Two activations in a row from the loaded state: one listener, and the
    hints of the first. *)
Example activate_twice :
  ∃ w1 w2,
    step (Activate (source (Source.mkEditor text))) idle = Some w1
    ∧ step (Activate (source (Source.mkEditor "[[Other]]"))) w1 = Some w2
    ∧ w2 = w1 ∧ length (keydownListeners w2) = 1%nat
    ∧ length (document w2) = 3%nat.
Proof.
  eexists _, _. split; [vm_compute; reflexivity|].
  split; [reflexivity|]. split; [reflexivity|].
  split; vm_compute; reflexivity.
Qed.

End SessionClaims.

(** ** The sort of the raw-text locator *)

Section SortFacts.
Import Source.

Lemma sort_insert_Permutation {A} (compareFn : A → A → Z) x l :
  sort_insert compareFn x l ≡ₚ x :: l.
Proof.
  induction l as [|y l IH]; simpl; [done|].
  destruct (0 <? compareFn x y); [|done].
  rewrite IH. apply Permutation_swap.
Qed.

Lemma sort_Permutation {A} (compareFn : A → A → Z) l :
  sort compareFn l ≡ₚ l.
Proof.
  induction l as [|x l IH]; simpl; [done|].
  by rewrite sort_insert_Permutation, IH.
Qed.

Lemma sort_insert_by_index x l :
  StronglySorted (λ a b, link_index a ≤ link_index b) l →
  StronglySorted (λ a b, link_index a ≤ link_index b)
    (sort_insert (λ a b, link_index a - link_index b) x l).
Proof.
  induction 1 as [|y l Hsorted IH Hy]; simpl.
  - repeat constructor.
  - destruct (Z.ltb_spec 0 (link_index x - link_index y)) as [Hgt|Hle].
    + constructor; [done|].
      rewrite sort_insert_Permutation. constructor; [lia | done].
    + constructor; [by constructor|].
      constructor; [lia|]. eapply Forall_impl; [done|]. simpl. lia.
Qed.

(** The hints of the raw-text locator come out in the order of their
    index, and they are the links found, all of them. *)
Lemma sort_by_index links :
  StronglySorted (λ a b, link_index a ≤ link_index b)
    (sort (λ a b, link_index a - link_index b) links)
  ∧ sort (λ a b, link_index a - link_index b) links ≡ₚ links.
Proof.
  split; [|apply sort_Permutation].
  induction links as [|x links IH]; simpl; [constructor|].
  by apply sort_insert_by_index.
Qed.

End SortFacts.

(** ** The bounds of the model are never reached

    The matcher and the loops around [exec] carry iteration bounds that the
    code does not have. They are large enough: no run of the locator ends
    for lack of fuel, so the locator and the activation command always
    return. *)

Section RegExpFacts.
Import RegExp.
Context (input : list ascii).

Lemma ahead_refl dir x :
  (endIndex x ≤ length input)%nat → ahead input dir 0 x x.
Proof. destruct dir; simpl; lia. Qed.

Lemma ahead_trans dir n m x y z :
  ahead input dir n x y → ahead input dir m y z →
  ahead input dir (n + m) x z.
Proof. destruct dir; simpl; lia. Qed.

Lemma ahead_weaken dir n m x y :
  (m ≤ n)%nat → ahead input dir n x y → ahead input dir m x y.
Proof. destruct dir; simpl; lia. Qed.

Lemma ahead_valid dir n x y :
  (endIndex x ≤ length input)%nat → ahead input dir n x y →
  (endIndex y ≤ length input)%nat.
Proof. destruct dir; simpl; lia. Qed.

Lemma ahead_same_index dir n x x' y y' :
  endIndex x' = endIndex x → endIndex y' = endIndex y →
  ahead input dir n x y → ahead input dir n x' y'.
Proof. destruct dir; simpl; lia. Qed.

(** The matcher answers what its continuation answers at the state [x]
    itself. *)
Ltac answers_here x :=
  right; exists x; split; [by apply ahead_refl | done].

Lemma answers_from_weaken dir n m x c z :
  (m ≤ n)%nat → answers_from input dir n x c z →
  answers_from input dir m x c z.
Proof.
  intros Hle [->|(y & Hy & ->)]; [by left|].
  right. exists y. split; [by eapply ahead_weaken | done].
Qed.

(** Chaining: the continuation is itself a matcher run. *)
Lemma answers_from_chain dir n m x c c' z :
  (endIndex x ≤ length input)%nat →
  answers_from input dir n x c' z →
  (∀ y, (endIndex y ≤ length input)%nat → ahead input dir n x y →
        answers_from input dir m y c (c' y)) →
  answers_from input dir (n + m) x c z.
Proof.
  intros Hx [->|(y & Hy & ->)] Hc'; [by left|].
  destruct (Hc' y) as [->|(y' & Hy' & ->)];
    [by eapply ahead_valid | done | by left |].
  right. exists y'. split; [by eapply ahead_trans | done].
Qed.

Lemma answers_from_or_else dir n x c z alternative :
  answers_from input dir n x c z →
  answers_from input dir n x c (alternative tt) →
  answers_from input dir n x c (or_else z alternative).
Proof. intros Hz Halt. by destruct z. Qed.

Lemma char_set_matcher_answers dir accepts x c :
  answers_from input dir 1 x c (char_set_matcher input dir accepts x c).
Proof.
  unfold char_set_matcher. destruct dir.
  - destruct (input !! endIndex x) as [ch|] eqn:Hch; [|by left].
    destruct (accepts ch); [|by left].
    apply lookup_lt_Some in Hch. right. eexists. split; [|done]. simpl. lia.
  - destruct (endIndex x) as [|f] eqn:Hx; [by left|].
    destruct (input !! f) as [ch|]; [|by left].
    destruct (accepts ch); [|by left].
    right. eexists. split; [|done]. simpl. lia.
Qed.

Lemma repeat0_answers m greedy clear c dir :
  (∀ x c', (endIndex x ≤ length input)%nat →
           answers_from input dir 0 x c' (m x c')) →
  (∀ x, endIndex (clear x) = endIndex x) →
  ∀ fuel x,
    (endIndex x ≤ length input)%nat → (remaining input dir x < fuel)%nat →
    answers_from input dir 0 x c (repeat0 m greedy clear c fuel x).
Proof.
  intros Hm Hclear fuel.
  induction fuel as [|fuel IH]; intros x Hx Hfuel; [lia|].
  cbn [repeat0].
  assert (answers_from input dir 0 x c (c x)) as Hstop.
  { answers_here x. }
  match goal with
  | |- context [m (clear x) ?d'] => set (d := d')
  end.
  assert (answers_from input dir 0 x c (m (clear x) d)) as Hmore.
  { apply (answers_from_chain dir 0 0 x c d _ Hx).
    - destruct (Hm (clear x) d) as [->|(y & Hy & ->)];
        [by rewrite Hclear | by left |].
      right. exists y. split; [|done].
      by apply (ahead_same_index dir 0 (clear x) x y y).
    - intros y Hvalid Hy. unfold d.
      destruct (Nat.eqb_spec (endIndex y) (endIndex x)) as [|Hne];
        [by left|].
      apply IH; [done|]. revert Hy Hfuel. destruct dir; simpl; lia. }
  destruct greedy; by apply answers_from_or_else.
Qed.

Lemma matcher_answers r dir x c :
  (endIndex x ≤ length input)%nat →
  answers_from input dir (min_len r) x c (matcher input r dir x c).
Proof.
  revert dir x c.
  induction r as [|ch| |cs| |r1 IH1 r2 IH2|r1 IH1 r2 IH2|greedy r1 IH1
                 |r1 IH1|n r1 IH1|r1 IH1]; intros dir x c Hx; cbn [matcher min_len].
  - answers_here x.
  - apply char_set_matcher_answers.
  - apply char_set_matcher_answers.
  - apply char_set_matcher_answers.
  - destruct (Nat.eqb (endIndex x) 0); [|by left].
    answers_here x.
  - destruct dir.
    + apply (answers_from_chain _ _ _ x c _ _ Hx (IH1 _ _ _ Hx)).
      intros y Hy _. by apply IH2.
    + rewrite Nat.add_comm.
      apply (answers_from_chain _ _ _ x c _ _ Hx (IH2 _ _ _ Hx)).
      intros y Hy _. by apply IH1.
  - apply answers_from_or_else.
    + eapply answers_from_weaken; [|by apply IH1]. lia.
    + eapply answers_from_weaken; [|by apply IH2]. lia.
  - rewrite <- (Nat.add_0_r (min_len r1)).
    apply (answers_from_chain _ _ _ x c
             (repeat0 (matcher input r1 dir) greedy
                (clear_groups (groups_of r1)) c (S (length input))) _ Hx).
    + destruct (IH1 dir (clear_groups (groups_of r1) x)
                  (repeat0 (matcher input r1 dir) greedy
                     (clear_groups (groups_of r1)) c (S (length input))))
        as [->|(y & Hy & ->)]; [done | by left |].
      right. exists y. split; [|done].
      by apply (ahead_same_index dir _ (clear_groups (groups_of r1) x) x y y).
    + intros y Hy _. apply repeat0_answers; [| done | done |].
      * intros x' c' Hx'. eapply answers_from_weaken; [|by apply IH1]. lia.
      * destruct dir; simpl; lia.
  - match goal with
    | |- context [matcher input r1 dir _ ?d'] => set (d := d')
    end.
    apply answers_from_or_else.
    + apply (answers_from_chain dir 0 0 x c d _ Hx).
      * destruct (IH1 dir (clear_groups (groups_of r1) x) d)
          as [->|(y & Hy & ->)]; [done | by left |].
        right. exists y. split; [|done].
        apply (ahead_same_index dir 0 (clear_groups (groups_of r1) x) x y y);
          [done | done |].
        eapply ahead_weaken; [|done]. lia.
      * intros y Hvalid Hy. unfold d. destruct (Nat.eqb _ _); [by left|].
        answers_here y.
    + answers_here x.
  - destruct (IH1 dir x (λ y,
      c (mkState (endIndex y)
           (<[n := match dir with
                   | Forward => (endIndex x, endIndex y)
                   | Backward => (endIndex y, endIndex x)
                   end]> (captures y))))) as [->|(y & Hy & ->)];
      [done | by left |].
    right. eexists. split; [|done].
    by apply (ahead_same_index dir _ x x y).
  - destruct (IH1 Backward x Matched Hx) as [->|(y & Hy & ->)]; [by left|].
    right. eexists. split; [|done].
    apply (ahead_same_index dir 0 x x x); [done | done |].
    by apply ahead_refl.
Qed.

(** [exec] always answers; a match it finds ends at least [min_len re]
    characters after [lastIndex], inside the input. *)
Lemma exec_from_answers re steps lastIndex :
  (lastIndex + steps ≤ S (length input))%nat →
  exec_from input re lastIndex steps = Some (None, 0%nat)
  ∨ ∃ regExResult lastIndex',
      exec_from input re lastIndex steps
      = Some (Some regExResult, lastIndex')
      ∧ (lastIndex + min_len re ≤ lastIndex' ≤ length input)%nat.
Proof.
  revert lastIndex.
  induction steps as [|steps IH]; intros lastIndex Hsteps; [by left|].
  cbn [exec_from].
  destruct (matcher_answers re Forward (mkState lastIndex ∅) Matched)
    as [->|(y & Hy & ->)]; [simpl; lia | |].
  - destruct (IH (S lastIndex)) as [->|(res & e & -> & He)];
      [lia | by left |].
    right. exists res, e. split; [done | lia].
  - right. eexists _, _. split; [done|]. simpl in Hy. lia.
Qed.

Lemma exec_loop_total fuel re ty lastIndex linksWithIndex :
  (1 ≤ min_len re)%nat → (lastIndex ≤ length input)%nat →
  (length input - lastIndex < fuel)%nat →
  is_Some (Source.exec_loop fuel re ty input lastIndex linksWithIndex).
Proof.
  intros Hre. revert lastIndex linksWithIndex.
  induction fuel as [|fuel IH]; intros lastIndex links Hlast Hfuel; [lia|].
  cbn [Source.exec_loop]. unfold exec.
  destruct (exec_from_answers re (S (length input) - lastIndex) lastIndex)
    as [->|(res & e & -> & He)]; [lia | by eexists |].
  apply IH; lia.
Qed.

End RegExpFacts.

Section Totality.

Lemma scan_total re ty strs linksWithIndex :
  (1 ≤ min_len re)%nat → is_Some (Source.scan re ty strs linksWithIndex).
Proof.
  intros Hre. unfold Source.scan. apply exec_loop_total; [done | lia | lia].
Qed.

(** The raw-text locator returns on every text. *)
Lemma getSourceLinkHints_total cmEditor :
  is_Some (Source.getSourceLinkHints cmEditor).
Proof.
  unfold Source.getSourceLinkHints.
  destruct (scan_total Source.regExInternal internal
              (Source.getValue cmEditor) []) as [l1 ->]; [simpl; lia|].
  cbn [mbind option_bind].
  destruct (scan_total Source.regExExternal external
              (Source.getValue cmEditor) l1) as [l2 ->]; [simpl; lia|].
  cbn [mbind option_bind].
  destruct (scan_total Source.regExUrl external
              (Source.getValue cmEditor) l2) as [l3 ->]; [simpl; lia|].
  by eexists.
Qed.

(** The activation command returns in every state, for every view. *)
Lemma handleJumpToLink_total currentView w :
  is_Some (handleJumpToLink currentView w).
Proof.
  unfold handleJumpToLink. destruct (isLinkHintActive w); [by eexists|].
  destruct currentView as [previewViewEl|cmEditor|]; [by eexists| |by eexists].
  unfold manageSourceLinkHints.
  destruct (getSourceLinkHints_total cmEditor) as [linkHints ->].
  by eexists.
Qed.

End Totality.

(** ** The raw-text locator on the text of the example *)

Section LocatorClaims.
Import Examples.

(** C7. The raw-text locator on the text of the example yields exactly
    three hints, ordered by their index: the internal link [Home], the
    external link [http://x.com] and the external link [https://y.com]. *)
Theorem getSourceLinkHints_example :
  Source.getSourceLinkHints (Source.mkEditor text)
  = Some [ mkSourceHint (mkHint (Some "A") (Some "Home") internal) 4;
           mkSourceHint (mkHint (Some "B") (Some "http://x.com") external) 4;
           mkSourceHint (mkHint (Some "C") (Some "https://y.com") external)
                        47 ].
Proof. vm_compute. reflexivity. Qed.

End LocatorClaims.

(** * Further properties *)

(** ** The label allocator, continued *)

Section AllocatorMore.
Import Allocator.

(** A check made for each of the 27 prefix counts holds for every count in
    range, whatever the family of label lists. *)
Lemma checked_family (check : nat → list string → bool)
    (space : Z → list string) :
  forallb (λ k, check k (space (Z.of_nat k))) (seq 0 27) = true →
  ∀ p, 0 ≤ p ≤ 26 → check (Z.to_nat p) (space p) = true.
Proof.
  intros Hall p Hp. rewrite forallb_forall in Hall.
  specialize (Hall (Z.to_nat p)). rewrite Z2Nat.id in Hall by lia.
  apply Hall, in_seq. lia.
Qed.

Lemma label_space_shapes :
  forallb (λ k, (λ _ labels, forallb label_shape labels) k
                  (label_space (Z.of_nat k))) (seq 0 27) = true.
Proof. vm_compute. reflexivity. Qed.

Lemma label_space_in_order :
  forallb (λ k, (λ k labels, bool_decide (labels = labels_in_order k)) k
                  (label_space (Z.of_nat k))) (seq 0 27) = true.
Proof. vm_compute. reflexivity. Qed.

Lemma allocated_shape (n : Z) (label : string) :
  label ∈ getLinkHintLetters n → label_shape label = true.
Proof.
  rewrite getLinkHintLetters_take. intros Hlabel%subseteq_take.
  pose proof (checked_family _ label_space label_space_shapes
                (prefixCount n) (prefixCount_range n)) as Hall.
  cbv beta in Hall. revert Hlabel Hall.
  generalize (label_space (prefixCount n)). intros labels Hlabel Hall.
  rewrite forallb_forall in Hall. by apply Hall, list_elem_of_In.
Qed.

(** X1. Every label the allocator returns is one or two upper-case
    letters, whatever number of labels is asked for. *)
Theorem allocated_label_shape (n : Z) (label : string) :
  label ∈ getLinkHintLetters n → label_shape label = true.
Proof.
  rewrite getLinkHintLetters_take. intros Hlabel%subseteq_take.
  pose proof (checked_family _ label_space label_space_shapes
                (prefixCount n) (prefixCount_range n)) as Hall.
  cbv beta in Hall. revert Hlabel Hall.
  generalize (label_space (prefixCount n)). intros labels Hlabel Hall.
  rewrite forallb_forall in Hall. by apply Hall, list_elem_of_In.
Qed.

Lemma allocated_label_shape_witness :
  "AC" ∈ getLinkHintLetters 28 ∧ label_shape "AC" = true.
Proof.
  assert ("AC" ∈ getLinkHintLetters 28) as Hin
    by (apply list_elem_of_In; vm_compute; tauto).
  split; [exact Hin | exact (allocated_label_shape 28 "AC" Hin)].
Defined.

(** X2. When more than 26 labels are asked for (and no more than 676), the
    allocator sets aside the least number of prefix letters that leaves
    room for them: with one prefix fewer the labels would not suffice. *)
Theorem prefixCount_least (n : Z) :
  26 < n ≤ 676 →
  1 ≤ prefixCount n
  ∧ 26 + 25 * (prefixCount n - 1) < n ≤ 26 + 25 * prefixCount n.
Proof.
  intros Hn. unfold prefixCount, ceil_div. change alphabet_length with 26.
  change (26 - 1) with 25. Z.to_euclidean_division_equations. lia.
Qed.

Lemma prefixCount_least_witness :
  26 < 52 ≤ 676
  ∧ 1 ≤ prefixCount 52
  ∧ 26 + 25 * (prefixCount 52 - 1) < 52 ≤ 26 + 25 * prefixCount 52.
Proof. split; [lia | apply (prefixCount_least 52); lia]. Defined.

(** X3. The labels come in a fixed order: first the single letters that
    are not prefixes, which are the letters after the first [prefixCount]
    ones, then the two-letter labels prefix by prefix, each in alphabet
    order; the result is the first [n] of these. *)
Theorem getLinkHintLetters_in_order (n : Z) :
  getLinkHintLetters n
  = take (Z.to_nat n) (labels_in_order (Z.to_nat (prefixCount n))).
Proof.
  rewrite getLinkHintLetters_take.
  pose proof (checked_family _ label_space label_space_in_order
                (prefixCount n) (prefixCount_range n)) as Heq.
  cbv beta in Heq. apply bool_decide_eq_true in Heq. by rewrite Heq.
Qed.

(** X19. Asking for more labels keeps the labels already given, as long
    as the number of prefix letters stays the same: the labels for [n] are
    then the first [n] of the labels for [m]. *)
Theorem labels_are_stable (n m : Z) :
  n ≤ m → prefixCount n = prefixCount m →
  getLinkHintLetters n = take (Z.to_nat n) (getLinkHintLetters m).
Proof.
  intros Hle Hsame. rewrite !getLinkHintLetters_take, Hsame, take_take.
  f_equal. lia.
Qed.

Lemma labels_are_stable_witness :
  27 ≤ 30 ∧ prefixCount 27 = prefixCount 30
  ∧ getLinkHintLetters 27 = take (Z.to_nat 27) (getLinkHintLetters 30).
Proof.
  assert (prefixCount 27 = prefixCount 30) as Hsame by reflexivity.
  split; [lia|]. split; [exact Hsame|].
  apply (labels_are_stable 27 30); [lia | exact Hsame].
Defined.

End AllocatorMore.

(** ** The locators, continued *)

Section LocatorMore.
Import Allocator.

Lemma allocated_NoDup n : NoDup (getLinkHintLetters n).
Proof.
  rewrite getLinkHintLetters_take.
  destruct (label_space_facts n) as (_ & Hnodup & _).
  revert Hnodup. generalize (label_space (prefixCount n)).
  intros labels Hnodup. by apply NoDup_take.
Qed.

Lemma allocated_length n :
  0 ≤ n → Z.of_nat (length (getLinkHintLetters n)) = Z.min n capacity.
Proof.
  intros Hn. rewrite getLinkHintLetters_take.
  destruct (label_space_facts n) as (Hlen & _ & _).
  pose proof (prefixCount_enough n) as Henough.
  revert Hlen. generalize (label_space (prefixCount n)).
  intros labels Hlen. rewrite length_take. lia.
Qed.

(** The labels handed to [count] hints: the hint at [i] has one when
    [i < 676], none from 676 on, and no two hints share one. *)
Lemma allocated_lookup (count i : nat) :
  (i < count)%nat →
  ((i < 676)%nat →
   is_Some (getLinkHintLetters (Z.of_nat count) !! i))
  ∧ ((676 ≤ i)%nat → getLinkHintLetters (Z.of_nat count) !! i = None)
  ∧ ∀ j label,
      getLinkHintLetters (Z.of_nat count) !! i = Some label →
      getLinkHintLetters (Z.of_nat count) !! j = Some label → j = i.
Proof.
  intros Hi. pose proof (allocated_length (Z.of_nat count)) as Hlen.
  pose proof (allocated_NoDup (Z.of_nat count)) as Hnodup.
  revert Hlen Hnodup. unfold capacity.
  generalize (getLinkHintLetters (Z.of_nat count)). intros labels Hlen Hnodup.
  split; [|split].
  - intros Hlt. apply lookup_lt_is_Some. lia.
  - intros Hge. apply lookup_ge_None. lia.
  - intros j label Hi' Hj. by eapply NoDup_lookup.
Qed.

(** X4. The position of an element is its own offsets plus those of its
    offset parents below the view element: the walk stops at the view
    element, whose offsets and whatever lies above it do not count, and at
    the end of the chain when the view element is not on it. *)
Theorem walk_up_to_view (below : list (Z * Z))
    (above : list Preview.OffsetParent) (top left : Z) :
  Preview.walk (ancestors below ++ Preview.ViewEl :: above) top left
  = (top + sum_Z below.*1, left + sum_Z below.*2)
  ∧ Preview.walk (ancestors below) top left
    = (top + sum_Z below.*1, left + sum_Z below.*2).
Proof.
  unfold sum_Z. revert top left.
  induction below as [|[t l] below IH]; intros top left; csimpl.
  - split; f_equal; lia.
  - destruct (IH (top + t) (left + l)) as [-> ->]. split; f_equal; lia.
Qed.

Lemma position_le_refl a : position_le a a.
Proof. unfold position_le. lia. Qed.

Lemma position_le_trans a b c :
  position_le a b → position_le b c → position_le a c.
Proof. unfold position_le. lia. Qed.

Lemma compare_position_spec (a b : PreviewLinkHint) :
  if 0 <? Preview.compare_position a b
  then position_le (position b) (position a)
  else position_le (position a) (position b).
Proof.
  unfold Preview.compare_position, position_le, position. simpl.
  destruct (Z.ltb_spec (top b) (top a)); simpl; [lia|].
  destruct (Z.eqb_spec (top a) (top b)); simpl; [|lia].
  destruct (Z.ltb_spec (left b) (left a)); simpl; [lia|].
  destruct (Z.eqb_spec (left a) (left b)); simpl; lia.
Qed.

Lemma sort_insert_by_position x l :
  StronglySorted (λ a b, position_le (position a) (position b)) l →
  StronglySorted (λ a b, position_le (position a) (position b))
    (sort_insert Preview.compare_position x l).
Proof.
  induction 1 as [|y l Hsorted IH Hy]; simpl.
  - repeat constructor.
  - pose proof (compare_position_spec x y) as Hxy.
    destruct (0 <? Preview.compare_position x y).
    + constructor; [done|].
      rewrite sort_insert_Permutation. by constructor.
    + constructor; [by constructor|].
      constructor; [done|]. eapply Forall_impl; [done|].
      intros z Hz. by eapply position_le_trans.
Qed.

Lemma sort_by_position l :
  StronglySorted (λ a b, position_le (position a) (position b))
    (sort Preview.compare_position l).
Proof.
  induction l as [|x l IH]; simpl; [constructor|].
  by apply sort_insert_by_position.
Qed.

Lemma StronglySorted_fmap_2 {A B} (R : B → B → Prop) (f : A → B) l :
  StronglySorted (λ a b, R (f a) (f b)) l → StronglySorted R (f <$> l).
Proof.
  induction 1 as [|x l Hsorted IH Hx]; simpl; constructor; [done|].
  by apply Forall_fmap.
Qed.

Lemma preview_hints_perm (previewViewEl : Preview.PreviewViewEl) :
  described <$> Preview.getPreviewLinkHints previewViewEl
  ≡ₚ described <$> collected previewViewEl.
Proof.
  unfold Preview.getPreviewLinkHints. fold (collected previewViewEl).
  cbv zeta. rewrite fmap_imap.
  rewrite (imap_ext (λ n, described ∘ _) (const described)) by done.
  by rewrite imap_const, sort_Permutation.
Qed.

(** X5. The hints of the rendered-view locator are those collected from
    the anchors and the embeds, each once (letters apart), ordered by
    [top] and, at equal [top], by [left]. *)
Theorem getPreviewLinkHints_sorted (previewViewEl : Preview.PreviewViewEl) :
  StronglySorted position_le
    (position <$> Preview.getPreviewLinkHints previewViewEl)
  ∧ described <$> Preview.getPreviewLinkHints previewViewEl
    ≡ₚ described <$> collected previewViewEl.
Proof.
  split; [|apply preview_hints_perm].
  unfold Preview.getPreviewLinkHints. fold (collected previewViewEl).
  cbv zeta. rewrite fmap_imap.
  rewrite (imap_ext _ (const position)) by done.
  rewrite imap_const. apply StronglySorted_fmap_2, sort_by_position.
Qed.

Lemma length_omap_embed_hint embedEls :
  length (omap Preview.embed_hint embedEls)
  = length (List.filter embed_qualifies embedEls).
Proof.
  induction embedEls as [|e embedEls IH]; [done|].
  cbn [omap list_omap List.filter]. fold (omap Preview.embed_hint embedEls).
  unfold Preview.embed_hint at 1, embed_qualifies at 1.
  destruct (Preview.markdown_embed_link e) as [box|];
    [|rewrite andb_false_r; done].
  rewrite andb_true_r. destruct (Preview.truthy _); [|done].
  destruct (Preview.position_of box). simpl. by rewrite IH.
Qed.

(** X20. The rendered-view locator makes one hint of every anchor, with
    or without a target, and one of every embed that has a [src] that is
    not empty and a link element, and of no other embed; a hint it types
    external has a link text. *)
Theorem getPreviewLinkHints_count (previewViewEl : Preview.PreviewViewEl) :
  length (Preview.getPreviewLinkHints previewViewEl)
  = (length (Preview.anchorEls previewViewEl)
     + length (List.filter embed_qualifies
                 (Preview.embedEls previewViewEl)))%nat
  ∧ ∀ h : PreviewLinkHint,
      h ∈ Preview.getPreviewLinkHints previewViewEl →
      type h = external → is_Some (linkText h).
Proof.
  split.
  - unfold Preview.getPreviewLinkHints. cbv zeta.
    rewrite length_imap, (Permutation_length (sort_Permutation _ _)).
    by rewrite length_app, length_map, length_omap_embed_hint.
  - intros h Hh Hexternal.
    assert (described h ∈ described <$> collected previewViewEl) as Hin.
    { rewrite <- (preview_hints_perm previewViewEl).
      by apply list_elem_of_fmap_2. }
    apply list_elem_of_fmap in Hin as (h0 & Heq & Hh0).
    injection Heq as Htext Htype _ _. rewrite Htext. rewrite Htype in Hexternal.
    clear Htext Htype Hh. unfold collected in Hh0.
    apply elem_of_app in Hh0 as [Hanchor|Hembed].
    + apply list_elem_of_fmap in Hanchor as (a & -> & _).
      revert Hexternal. unfold Preview.anchor_hint.
      destruct (Preview.position_of _).
      by destruct (Preview.has_internal_link a).
    + apply list_elem_of_omap in Hembed as (e & _ & He).
      revert He. unfold Preview.embed_hint.
      destruct (Preview.markdown_embed_link e) as [box|]; [|done].
      destruct (Preview.truthy _); [|done].
      destruct (Preview.position_of box). intros [= <-]. done.
Qed.

Lemma getPreviewLinkHints_count_witness :
  second_link ∈ Preview.getPreviewLinkHints view_two_links
  ∧ type second_link = external
  ∧ is_Some (linkText second_link).
Proof.
  assert (second_link ∈ Preview.getPreviewLinkHints view_two_links) as Hin
    by (apply list_elem_of_In; vm_compute; tauto).
  assert (type second_link = external) as Hexternal by reflexivity.
  split; [exact Hin|]. split; [exact Hexternal|].
  exact (proj2 (getPreviewLinkHints_count view_two_links) second_link
           Hin Hexternal).
Defined.

(** What follows for the hints of a locator from the way it hands out the
    labels, by position. *)
Lemma assigned_letters {A} (letter_of : A → option string) (hs : list A) :
  (∀ i h, hs !! i = Some h →
          letter_of h = getLinkHintLetters (Z.of_nat (length hs)) !! i) →
  ∀ i h, hs !! i = Some h →
    ((i < 676)%nat →
     ∃ label, letter_of h = Some label ∧ label_shape label = true)
    ∧ ((676 ≤ i)%nat → letter_of h = None)
    ∧ ∀ j h', hs !! j = Some h' → is_Some (letter_of h) →
              letter_of h' = letter_of h → j = i.
Proof.
  intros Hletters i h Hh.
  pose proof (lookup_lt_Some _ _ _ Hh) as Hi.
  destruct (allocated_lookup (length hs) i Hi) as (Hsome & Hnone & Hinj).
  rewrite (Hletters i h Hh). split; [|split].
  - intros Hlt. destruct (Hsome Hlt) as [label Hlabel].
    exists label. split; [done|].
    apply (allocated_shape (Z.of_nat (length hs))).
    by eapply list_elem_of_lookup_2.
  - done.
  - intros j h' Hh' [label Hlabel] Heq. rewrite (Hletters j h' Hh') in Heq.
    rewrite Hlabel in Heq. by eapply Hinj.
Qed.

(** X6. The rendered-view locator labels its hints by position: each of
    the first 676 hints has a label of one or two upper-case letters, a hint
    from position 676 on has no letter, and no two hints share a label. *)
Theorem getPreviewLinkHints_letters (previewViewEl : Preview.PreviewViewEl)
    (i : nat) (h : PreviewLinkHint) :
  Preview.getPreviewLinkHints previewViewEl !! i = Some h →
  ((i < 676)%nat → ∃ label, letter h = Some label ∧ label_shape label = true)
  ∧ ((676 ≤ i)%nat → letter h = None)
  ∧ ∀ j (h' : PreviewLinkHint), Preview.getPreviewLinkHints previewViewEl !! j = Some h' →
            is_Some (letter h) → letter h' = letter h → j = i.
Proof.
  apply (assigned_letters (λ h : PreviewLinkHint, letter h)).
  clear i h. intros i h. unfold Preview.getPreviewLinkHints. cbv zeta.
  rewrite length_imap. intros (x & _ & ->)%list_lookup_imap_Some. done.
Qed.

Lemma getPreviewLinkHints_letters_witness :
  Preview.getPreviewLinkHints view_two_links !! 1%nat = Some second_link
  ∧ ((1 < 676)%nat →
     ∃ label, letter second_link = Some label ∧ label_shape label = true)
  ∧ ((676 ≤ 1)%nat → letter second_link = None)
  ∧ ∀ j (h' : PreviewLinkHint), Preview.getPreviewLinkHints view_two_links !! j = Some h' →
            is_Some (letter second_link) →
            letter h' = letter second_link → j = 1%nat.
Proof.
  assert (Preview.getPreviewLinkHints view_two_links !! 1%nat
          = Some second_link) as Hlookup by (vm_compute; reflexivity).
  split; [exact Hlookup|].
  exact (getPreviewLinkHints_letters view_two_links 1 second_link Hlookup).
Defined.

Lemma getSourceLinkHints_Some cmEditor hs :
  Source.getSourceLinkHints cmEditor = Some hs →
  ∃ linksWithIndex,
    hs = imap (λ i linkHint,
                 mkSourceHint
                   (mkHint
                      (getLinkHintLetters
                         (Z.of_nat (length linksWithIndex)) !! i)
                      (Source.link_text linkHint)
                      (Source.link_type linkHint))
                   (Source.link_index linkHint))
           (sort (λ x y, Source.link_index x - Source.link_index y)
                 linksWithIndex).
Proof.
  unfold Source.getSourceLinkHints. intros Hhs.
  destruct (Source.scan Source.regExInternal _ _ _) as [l1|]; [|done].
  cbn [mbind option_bind] in Hhs.
  destruct (Source.scan Source.regExExternal _ _ _) as [l2|]; [|done].
  cbn [mbind option_bind] in Hhs.
  destruct (Source.scan Source.regExUrl _ _ _) as [l3|]; [|done].
  cbn [mbind option_bind] in Hhs. exists l3. by simplify_eq.
Qed.

(** X7. The raw-text locator labels its hints by position in the same
    way: one or two upper-case letters for each of the first 676 hints, no
    letter from position 676 on, no label twice. *)
Theorem getSourceLinkHints_letters (cmEditor : Source.Editor)
    (hs : list SourceLinkHint) (i : nat) (h : SourceLinkHint) :
  Source.getSourceLinkHints cmEditor = Some hs → hs !! i = Some h →
  ((i < 676)%nat → ∃ label, letter h = Some label ∧ label_shape label = true)
  ∧ ((676 ≤ i)%nat → letter h = None)
  ∧ ∀ j (h' : SourceLinkHint), hs !! j = Some h' → is_Some (letter h) →
            letter h' = letter h → j = i.
Proof.
  intros (links & ->)%getSourceLinkHints_Some.
  apply (assigned_letters (λ h : SourceLinkHint, letter h)).
  clear i h. intros i h. rewrite length_imap.
  intros (x & _ & ->)%list_lookup_imap_Some. simpl.
  f_equal. f_equal. f_equal.
  apply Permutation_length. symmetry. apply sort_Permutation.
Qed.

Lemma getSourceLinkHints_letters_witness :
  Source.getSourceLinkHints (Source.mkEditor Examples.text)
  = Some hints_of_text
  ∧ hints_of_text !! 2%nat = Some third_hint
  ∧ ((2 < 676)%nat →
     ∃ label, letter third_hint = Some label ∧ label_shape label = true)
  ∧ ((676 ≤ 2)%nat → letter third_hint = None)
  ∧ ∀ j (h' : SourceLinkHint), hints_of_text !! j = Some h' → is_Some (letter third_hint) →
            letter h' = letter third_hint → j = 2%nat.
Proof.
  assert (Source.getSourceLinkHints (Source.mkEditor Examples.text)
          = Some hints_of_text) as Hhints by (vm_compute; reflexivity).
  assert (hints_of_text !! 2%nat = Some third_hint) as Hlookup
    by reflexivity.
  split; [exact Hhints|]. split; [exact Hlookup|].
  exact (getSourceLinkHints_letters (Source.mkEditor Examples.text)
           hints_of_text 2 third_hint Hhints Hlookup).
Defined.

(** X8. The hints of the raw-text locator come in the order of their
    index in the text. *)
Theorem getSourceLinkHints_sorted (cmEditor : Source.Editor)
    (hs : list SourceLinkHint) :
  Source.getSourceLinkHints cmEditor = Some hs →
  StronglySorted Z.le (index <$> hs).
Proof.
  intros (links & ->)%getSourceLinkHints_Some.
  rewrite fmap_imap.
  rewrite (imap_ext _ (const Source.link_index)) by done.
  rewrite imap_const. apply StronglySorted_fmap_2.
  apply sort_by_index.
Qed.

Lemma getSourceLinkHints_sorted_witness :
  Source.getSourceLinkHints (Source.mkEditor Examples.text)
  = Some hints_of_text
  ∧ StronglySorted Z.le (index <$> hints_of_text).
Proof.
  assert (Source.getSourceLinkHints (Source.mkEditor Examples.text)
          = Some hints_of_text) as Hhints by (vm_compute; reflexivity).
  split; [exact Hhints|].
  exact (getSourceLinkHints_sorted (Source.mkEditor Examples.text)
           hints_of_text Hhints).
Defined.

End LocatorMore.

(** ** The keystroke handler, continued *)

Section HandlerMore.

(** X9. Every key but Shift that reaches the handler is consumed: the
    default action is prevented and the propagation stopped, also for the
    other listeners of the document, whether the key selects a hint, starts
    a prefix or matches nothing; the key and its Shift state are left as
    they are. *)
Theorem key_is_consumed (f : Listener) (event : KeyboardEvent) (w : World) :
  key event ≠ "Shift" →
  consumed (handleKeyDown f event w).1
  ∧ key (handleKeyDown f event w).1 = key event
  ∧ shiftKey (handleKeyDown f event w).1 = shiftKey event.
Proof.
  intros Hkey%String.eqb_neq. unfold handleKeyDown, resolve, consumed.
  rewrite Hkey. destruct (prefixInfo w); [done|].
  by destruct (negb _ && _).
Qed.

Lemma key_is_consumed_witness :
  key (keydown "q" true) ≠ "Shift"
  ∧ consumed
      (handleKeyDown Examples.listener_A_BA (keydown "q" true)
         Examples.session_A_BA).1
  ∧ key (handleKeyDown Examples.listener_A_BA (keydown "q" true)
           Examples.session_A_BA).1 = key (keydown "q" true)
  ∧ shiftKey (handleKeyDown Examples.listener_A_BA (keydown "q" true)
                Examples.session_A_BA).1 = shiftKey (keydown "q" true).
Proof.
  assert (key (keydown "q" true) ≠ "Shift") as Hkey by discriminate.
  split; [exact Hkey|].
  exact (key_is_consumed Examples.listener_A_BA (keydown "q" true)
           Examples.session_A_BA Hkey).
Defined.

Lemma hint_map_snoc (hints : list LinkHintBase) x :
  foldl (λ m h, <[js_string (letter h) := h]> m) (∅ : gmap string LinkHintBase)
        (hints ++ [x])
  = <[js_string (letter x) := x]>
      (foldl (λ m h, <[js_string (letter h) := h]> m) ∅ hints).
Proof. by rewrite foldl_app. Qed.

Lemma hint_map_lookup (hints : list LinkHintBase) k :
  foldl (λ m h, <[js_string (letter h) := h]> m) (∅ : gmap string LinkHintBase)
        hints !! k
  = last (filter (λ h, js_string (letter h) = k) hints).
Proof.
  induction hints as [|x hints IH] using rev_ind; [done|].
  rewrite hint_map_snoc, filter_app, filter_cons, filter_nil.
  destruct (decide (js_string (letter x) = k)) as [<-|Hne].
  - by rewrite lookup_insert_eq, last_snoc.
  - by rewrite lookup_insert_ne, app_nil_r.
Qed.

(** X10. The listener that [activateLinkHints] registers is added after
    those there were, and its map holds, under each label, the last of the
    hints given that carries the label (a hint without letter counting as
    labelled "undefined"): a label no hint carries is not in the map. *)
Theorem activateLinkHints_map (linkHints : list LinkHintBase) (w : World) :
  ∃ f,
    keydownListeners (activateLinkHints linkHints w)
    = (keydownListeners w ++ [f])%list
    ∧ ∀ label,
        linkHintMap f !! label
        = last (filter (λ h, js_string (letter h) = label) linkHints).
Proof.
  eexists. split; [reflexivity|]. intros label. apply hint_map_lookup.
Qed.

Lemma hostCalls_set_prefixInfo p w :
  hostCalls (set_prefixInfo p w) = hostCalls w.
Proof. reflexivity. Qed.

(** X11. With one listener registered, the press of an ASCII key (Shift
    apart) opens a hint exactly when the label it completes, the key in
    upper case after the pending prefix if any, is in the map; it then
    opens the hint of that label, once, in a new pane when Shift is held
    or was held with the prefix. Otherwise it opens nothing. *)
Theorem press_opens_typed_label (f : Listener) (w : World) (pressed : string)
    (shift : bool) :
  keydownListeners w = [f] → pressed ≠ "Shift" →
  is_ascii_text pressed = true →
  hostCalls (press pressed shift w)
  = (hostCalls w
       ++ match linkHintMap f !! typed_label w pressed with
          | Some link => [navigation (typed_shift w shift) link]
          | None => []
          end)%list.
Proof.
  intros Hf Hkey _. rewrite (press_single f) by done.
  unfold typed_label, typed_shift.
  destruct (prefixInfo w) as [info|] eqn:Hinfo.
  - rewrite (handleKeyDown_pending f _ info) by done.
    rewrite hostCalls_teardown. cbn [key keydown shiftKey].
    destruct (linkHintMap f !! _);
      [by rewrite hostCalls_handleHotkey | by rewrite app_nil_r].
  - destruct (linkHintMap f !! toUpperCase pressed) as [link|] eqn:Hlink.
    + rewrite handleKeyDown_armed by (cbn; rewrite ?Hlink; eauto).
      cbn [key keydown shiftKey]. rewrite Hlink.
      by rewrite hostCalls_teardown, hostCalls_handleHotkey.
    + rewrite app_nil_r.
      destruct (decide (toUpperCase pressed ∈ prefixes_of (linkHintMap f))).
      * by rewrite handleKeyDown_prefix.
      * rewrite handleKeyDown_armed by (cbn; auto).
        cbn [key keydown]. by rewrite Hlink.
Qed.

Lemma press_opens_typed_label_witness :
  keydownListeners Examples.pending_B = [Examples.listener_A_BA]
  ∧ "a" ≠ "Shift"
  ∧ is_ascii_text "a" = true
  ∧ hostCalls (press "a" true Examples.pending_B)
    = (hostCalls Examples.pending_B
         ++ match linkHintMap Examples.listener_A_BA
                  !! typed_label Examples.pending_B "a" with
            | Some link => [navigation (typed_shift Examples.pending_B true) link]
            | None => []
            end)%list.
Proof.
  assert (keydownListeners Examples.pending_B = [Examples.listener_A_BA])
    as Hf by (vm_compute; reflexivity).
  assert ("a" ≠ "Shift") as Hkey by discriminate.
  assert (is_ascii_text "a" = true) as Hascii by reflexivity.
  split; [exact Hf|]. split; [exact Hkey|]. split; [exact Hascii|].
  exact (press_opens_typed_label Examples.listener_A_BA Examples.pending_B
           "a" true Hf Hkey Hascii).
Defined.

Lemma hint_map_lookup_inv (hints : list LinkHintBase) k h :
  foldl (λ m h, <[js_string (letter h) := h]> m) (∅ : gmap string LinkHintBase)
        hints !! k = Some h →
  h ∈ hints ∧ js_string (letter h) = k.
Proof.
  rewrite hint_map_lookup. intros Hlast%last_Some_elem_of.
  by apply list_elem_of_filter in Hlast as [? ?].
Qed.

Lemma hint_map_lookup_unique (hints : list LinkHintBase) i h :
  hints !! i = Some h →
  (∀ j h', hints !! j = Some h' →
           js_string (letter h') = js_string (letter h) → j = i) →
  foldl (λ m h, <[js_string (letter h) := h]> m) (∅ : gmap string LinkHintBase)
        hints !! js_string (letter h) = Some h.
Proof.
  induction hints as [|x hints IH] using rev_ind; [done|].
  intros [[Hi Hh]|[-> ->]]%lookup_snoc_Some Hunique; rewrite hint_map_snoc.
  - assert (js_string (letter x) ≠ js_string (letter h)) as Hne.
    { intros Heq. specialize (Hunique (length hints) x).
      rewrite list_lookup_middle in Hunique by done.
      specialize (Hunique eq_refl Heq). lia. }
    rewrite lookup_insert_ne by done. apply IH; [done|].
    intros j h' Hh'. apply Hunique. by apply lookup_app_l_Some.
  - apply lookup_insert_eq.
Qed.

Lemma upper_letter_fixed c : is_upper_letter c = true → upper_ascii c = c.
Proof.
  destruct c as [[] [] [] [] [] [] [] []]; intros H; vm_compute in H;
    (discriminate || reflexivity).
Qed.

Lemma label_shape_cases label :
  label_shape label = true →
  toUpperCase label = label ∧ label ≠ "undefined"
  ∧ ((∃ a, label = String a "") ∨ (∃ a b, label = String a (String b ""))).
Proof.
  intros Hshape. split; [|split].
  - destruct label as [|a [|b [|c rest]]]; simpl in Hshape; try done.
    + simpl. by rewrite upper_letter_fixed.
    + apply andb_prop in Hshape as [Ha Hb]. simpl.
      by rewrite !upper_letter_fixed.
  - intros ->. discriminate Hshape.
  - destruct label as [|a [|b [|c rest]]]; simpl in Hshape; try done; eauto.
Qed.

(** In a session whose hints are labelled by the allocator, typing the
    label of a hint opens that hint and ends the session. *)
Lemma typing_label (hints : list LinkHintBase) (w : World) (i : nat)
    (h : LinkHintBase) (label : string) (shift : bool) :
  keydownListeners w = [] → prefixInfo w = None →
  allocated hints → hints !! i = Some h → letter h = Some label →
  hostCalls (type_label label shift (activateLinkHints hints w))
  = (hostCalls w ++ [navigation shift h])%list
  ∧ Idle (type_label label shift (activateLinkHints hints w)).
Proof.
  intros Hnone Hinfo Halloc Hh Hlabel.
  pose proof (Halloc i h Hh) as Hgiven. rewrite Hlabel in Hgiven.
  symmetry in Hgiven.
  assert (label ∈ Allocator.getLinkHintLetters (Z.of_nat (length hints)))
    as Hin by (by eapply list_elem_of_lookup_2).
  destruct (label_shape_cases label (allocated_shape _ _ Hin))
    as (Hupper & Hdefined & Hcases).
  (* no other hint is found under the label *)
  assert (∀ j h', hints !! j = Some h' →
                  js_string (letter h') = js_string (letter h) → j = i)
    as Hunique.
  { intros j h' Hh' Hkey. rewrite Hlabel in Hkey. simpl in Hkey.
    pose proof (Halloc j h' Hh') as Hgiven'.
    destruct (letter h') as [label'|]; simpl in Hkey; [|done].
    subst label'. symmetry in Hgiven'.
    by eapply (NoDup_lookup _ j i label (allocated_NoDup _)). }
  pose proof (hint_map_lookup_unique hints i h Hh Hunique) as Hfound.
  rewrite Hlabel in Hfound. simpl in Hfound.
  unfold activateLinkHints, addEventListener. rewrite Hnone. simpl.
  set (m := foldl _ ∅ hints) in *.
  set (f := mkListener (closures w) m).
  match goal with
  | |- context [type_label label shift ?w'] => set (w0 := w')
  end.
  assert (keydownListeners w0 = [f]) as Hf by reflexivity.
  assert (prefixInfo w0 = None) as Hinfo0 by done.
  destruct Hcases as [[a ->]|(a & b & ->)].
  - (* one letter: the key is the label *)
    change (type_label (String a "") shift w0)
      with (press (String a "") shift w0).
    rewrite (press_single f) by done.
    rewrite handleKeyDown_armed;
      [| apply key_char_not_Shift | done
       | left; cbn [key keydown]; rewrite Hupper;
         change (linkHintMap f) with m; by rewrite Hfound ].
    cbn [key keydown shiftKey]. rewrite Hupper. change (linkHintMap f) with m.
    rewrite Hfound. split.
    + by rewrite hostCalls_teardown, hostCalls_handleHotkey.
    + repeat split. apply keydownListeners_teardown.
      by rewrite keydownListeners_handleHotkey.
  - (* two letters: the first is a prefix and no label *)
    simpl in Hupper. injection Hupper as Ha Hb.
    assert (m !! String a "" = None) as Hfirst.
    { destruct (m !! String a "") as [h'|] eqn:Hh'; [|done]. exfalso.
      apply hint_map_lookup_inv in Hh' as [Hin' Hkey].
      apply list_elem_of_lookup_1 in Hin' as [j Hj].
      pose proof (Halloc j h' Hj) as Hgiven'.
      destruct (letter h') as [label'|]; simpl in Hkey; [|done].
      subst label'.
      apply (allocated_prefix_is_no_label _ _ Hin); [simpl; lia|].
      simpl. by eapply list_elem_of_lookup_2. }
    assert (String a "" ∈ prefixes_of m) as Hprefix.
    { apply elem_of_prefixes_of. exists (String a (String b "")).
      rewrite Hfound. split; [by eexists|]. split; [simpl; lia | done]. }
    change (type_label (String a (String b "")) shift w0)
      with (press (String b "") shift (press (String a "") shift w0)).
    rewrite (press_single f (String a "")) by done.
    rewrite handleKeyDown_prefix;
      [| apply key_char_not_Shift | done
       | cbn [key keydown toUpperCase]; by rewrite Ha
       | cbn [key keydown toUpperCase]; by rewrite Ha ].
    cbn [key keydown shiftKey toUpperCase]. rewrite Ha.
    rewrite (press_single f (String b "")) by done.
    rewrite (handleKeyDown_pending f _ (PrefixInfo.mk (String a "") shift));
      [| apply key_char_not_Shift | done ].
    cbn [key keydown shiftKey toUpperCase PrefixInfo.prefix
         PrefixInfo.shiftKey]. rewrite Hb.
    change (linkHintMap f !! (String a "" +:+ String b ""))
      with (m !! String a (String b "")).
    rewrite Hfound, orb_diag. split.
    + by rewrite hostCalls_teardown, hostCalls_handleHotkey.
    + repeat split. apply keydownListeners_teardown.
      by rewrite keydownListeners_handleHotkey.
Qed.

End HandlerMore.

(** ** The raw-text locator, continued *)

Section SourceMore.
Import RegExp.

Lemma char_set_matcher_absent input accepts x c :
  (∀ ch, ch ∈ input → accepts ch = false) →
  char_set_matcher input Forward accepts x c = Failure.
Proof.
  intros Habsent. unfold char_set_matcher.
  destruct (input !! endIndex x) as [ch|] eqn:Hch; [|done].
  by rewrite (Habsent ch) by (by eapply list_elem_of_lookup_2).
Qed.

Lemma exec_from_no_match input re steps lastIndex :
  (∀ x, matcher input re Forward x Matched = Failure) →
  exec_from input re lastIndex steps = Some (None, 0%nat).
Proof.
  intros Hfail. revert lastIndex.
  induction steps as [|steps IH]; intros lastIndex; [done|].
  cbn [exec_from]. by rewrite Hfail.
Qed.

Lemma scan_no_match re ty strs linksWithIndex :
  (∀ x, matcher (list_ascii_of_string strs) re Forward x Matched
        = Failure) →
  Source.scan re ty strs linksWithIndex = Some linksWithIndex.
Proof.
  intros Hfail. unfold Source.scan. cbn [Source.exec_loop]. unfold exec.
  by rewrite exec_from_no_match.
Qed.

Lemma eqb_absent (c : ascii) (input : list ascii) :
  (∀ ch, ch ∈ input → ch ≠ c) → ∀ ch, ch ∈ input → Ascii.eqb c ch = false.
Proof.
  intros Hne ch Hch. apply Ascii.eqb_neq. intros ->. by eapply Hne.
Qed.

(** X17. A text without the characters [[] and [h] holds no link: the
    raw-text locator returns no hint for it, and the activation command
    leaves the state as it is. *)
Theorem text_without_links (cmEditor : Source.Editor) (w : World) :
  (∀ ch, ch ∈ list_ascii_of_string (Source.getValue cmEditor) →
         ch ≠ "["%char ∧ ch ≠ "h"%char) →
  Source.getSourceLinkHints cmEditor = Some []
  ∧ handleJumpToLink (source cmEditor) w = Some w.
Proof.
  intros Hplain.
  set (input := list_ascii_of_string (Source.getValue cmEditor)) in *.
  assert (∀ ch, ch ∈ input → Ascii.eqb "[" ch = false) as Hbracket
    by (apply eqb_absent; intros ch Hch; by apply Hplain).
  assert (∀ ch, ch ∈ input → Ascii.eqb "h" ch = false) as Hh
    by (apply eqb_absent; intros ch Hch; by apply Hplain).
  assert (∀ x, matcher input Source.regExInternal Forward x Matched
               = Failure) as Hinternal
    by (intros x; by apply char_set_matcher_absent).
  assert (∀ x, matcher input Source.regExExternal Forward x Matched
               = Failure) as Hexternal
    by (intros x; by apply char_set_matcher_absent).
  assert (∀ x, matcher input Source.regExUrl Forward x Matched = Failure)
    as Hurl.
  { intros x. set (behind := Alt (Char " ") (Alt (Char "010") Bol)).
    - (* the URL pattern: the look-behind, then [h] *)
      change (matcher input Source.regExUrl Forward x Matched)
        with (match matcher input behind Backward x Matched with
              | Matched y =>
                  char_set_matcher input Forward (Ascii.eqb "h")
                    (mkState (endIndex x) (captures y))
                    (λ y0, matcher input
                             (seq [ lit "ttp"; Opt (Char "s"); lit "://";
                                    Plus true (NotOneOf [" "; "010"]%char) ])
                             Forward y0
                             (λ y1, Matched
                                      (mkState (endIndex y1)
                                         (<[1%nat := (endIndex x, endIndex y1)]>
                                            (captures y1)))))
              | Failure => Failure
              | OutOfFuel => OutOfFuel
              end).
      destruct (matcher input behind Backward x Matched) as [y| |] eqn:Hback;
        [by apply char_set_matcher_absent | done |].
      destruct (decide (endIndex x ≤ length input)%nat) as [Hx|Hx].
      + destruct (matcher_answers input behind Backward x Matched Hx)
          as [Hz|(y & _ & Hz)]; congruence.
      + (* beyond the input the look-behind finds no character *)
        exfalso. revert Hback. unfold behind.
        cbn [matcher or_else char_set_matcher].
        destruct (endIndex x) as [|e] eqn:He; [simpl in Hx; lia|].
        rewrite (lookup_ge_None_2 input e) by lia. done. }
  assert (Source.getSourceLinkHints cmEditor = Some []) as Hnone.
  { unfold Source.getSourceLinkHints.
    rewrite scan_no_match by done. cbn [mbind option_bind].
    rewrite scan_no_match by done. cbn [mbind option_bind].
    by rewrite scan_no_match by done. }
  split; [done|]. unfold handleJumpToLink, manageSourceLinkHints.
  rewrite Hnone. by destruct (isLinkHintActive w).
Qed.

Lemma text_without_links_witness :
  (∀ ch, ch ∈ list_ascii_of_string
                (Source.getValue (Source.mkEditor "no link")) →
         ch ≠ "["%char ∧ ch ≠ "h"%char)
  ∧ Source.getSourceLinkHints (Source.mkEditor "no link") = Some []
  ∧ handleJumpToLink (source (Source.mkEditor "no link")) Examples.idle
    = Some Examples.idle.
Proof.
  assert (∀ ch, ch ∈ list_ascii_of_string
                       (Source.getValue (Source.mkEditor "no link")) →
                ch ≠ "["%char ∧ ch ≠ "h"%char) as Hplain.
  { intros ch Hch. simpl in Hch.
    repeat (apply elem_of_cons in Hch as [->|Hch];
            [split; discriminate|]).
    by apply elem_of_nil in Hch. }
  split; [exact Hplain|].
  exact (text_without_links (Source.mkEditor "no link") Examples.idle Hplain).
Defined.

(** *** Captures *)

Lemma framed_refl input dir gs x :
  (endIndex x ≤ length input)%nat → framed input dir 0 gs x x.
Proof. intros Hx. split; [by apply ahead_refl | done]. Qed.

Lemma framed_trans input dir n m gs1 gs2 x y z :
  framed input dir n gs1 x y → framed input dir m gs2 y z →
  framed input dir (n + m) (gs1 ++ gs2) x z.
Proof.
  intros [Hxy Hcxy] [Hyz Hcyz]. split; [by eapply ahead_trans|].
  intros k [Hk1 Hk2]%not_elem_of_app. by rewrite Hcyz, Hcxy.
Qed.

Lemma framed_weaken input dir n m gs gs' x y :
  (m ≤ n)%nat → gs ⊆ gs' →
  framed input dir n gs x y → framed input dir m gs' x y.
Proof.
  intros Hle Hsub [Hxy Hc]. split; [by eapply ahead_weaken|].
  intros k Hk. apply Hc. intros Hin. by apply Hk, Hsub.
Qed.

Lemma subseteq_app_same (gs : list nat) : (gs ++ gs)%list ⊆ gs.
Proof. intros k [Hk|Hk]%elem_of_app; done. Qed.

Lemma subseteq_app_nil (gs : list nat) : (gs ++ [])%list ⊆ gs.
Proof. by rewrite app_nil_r. Qed.

Lemma subseteq_app_swap (gs1 gs2 : list nat) :
  (gs2 ++ gs1)%list ⊆ (gs1 ++ gs2)%list.
Proof. intros k [Hk|Hk]%elem_of_app; apply elem_of_app; auto. Qed.

Lemma subseteq_app_left (gs1 gs2 : list nat) : gs1 ⊆ (gs1 ++ gs2)%list.
Proof. intros k Hk. apply elem_of_app. auto. Qed.

Lemma subseteq_app_right (gs1 gs2 : list nat) : gs2 ⊆ (gs1 ++ gs2)%list.
Proof. intros k Hk. apply elem_of_app. auto. Qed.

Lemma answers_framed_weaken input dir n m gs gs' x c z :
  (m ≤ n)%nat → gs ⊆ gs' →
  answers_framed input dir n gs x c z →
  answers_framed input dir m gs' x c z.
Proof.
  intros Hle Hsub [->|(y & Hy & ->)]; [by left|].
  right. exists y. split; [by eapply framed_weaken | done].
Qed.

Lemma answers_framed_chain input dir n m gs1 gs2 x c c' z :
  (endIndex x ≤ length input)%nat →
  answers_framed input dir n gs1 x c' z →
  (∀ y, (endIndex y ≤ length input)%nat → framed input dir n gs1 x y →
        answers_framed input dir m gs2 y c (c' y)) →
  answers_framed input dir (n + m) (gs1 ++ gs2) x c z.
Proof.
  intros Hx [->|(y & Hy & ->)] Hc'; [by left|].
  destruct (Hc' y) as [->|(y' & Hy' & ->)];
    [destruct Hy; by eapply ahead_valid | done | by left |].
  right. exists y'. split; [by eapply framed_trans | done].
Qed.

Lemma answers_framed_or_else input dir n gs x c z alternative :
  answers_framed input dir n gs x c z →
  answers_framed input dir n gs x c (alternative tt) →
  answers_framed input dir n gs x c (or_else z alternative).
Proof. intros Hz Halt. by destruct z. Qed.

(** The answers from a state that differs from [x] in the groups [gs]
    only are answers from [x]. *)
Lemma answers_framed_from input dir n gs x x' c z :
  endIndex x' = endIndex x →
  (∀ k, k ∉ gs → captures x' !! k = captures x !! k) →
  answers_framed input dir n gs x' c z →
  answers_framed input dir n gs x c z.
Proof.
  intros Hindex Hcaptures [->|(y & [Hy Hc] & ->)]; [by left|].
  right. exists y. split; [|done]. split.
  - by apply (ahead_same_index input dir n x' x y y).
  - intros k Hk. by rewrite Hc, Hcaptures.
Qed.

Lemma lookup_clear_groups gs x k :
  k ∉ gs → captures (clear_groups gs x) !! k = captures x !! k.
Proof.
  unfold clear_groups. simpl. induction gs as [|g gs IH]; [done|].
  intros [Hne Hk]%not_elem_of_cons. simpl.
  rewrite lookup_delete_ne by done. by apply IH.
Qed.

Lemma char_set_matcher_framed input dir accepts x c :
  answers_framed input dir 1 [] x c (char_set_matcher input dir accepts x c).
Proof.
  unfold char_set_matcher. destruct dir.
  - destruct (input !! endIndex x) as [ch|] eqn:Hch; [|by left].
    destruct (accepts ch); [|by left].
    apply lookup_lt_Some in Hch. right. eexists. split; [|done].
    split; [simpl; lia | done].
  - destruct (endIndex x) as [|f] eqn:Hx; [by left|].
    destruct (input !! f) as [ch|]; [|by left].
    destruct (accepts ch); [|by left].
    right. eexists. split; [|done]. split; [simpl; lia | done].
Qed.

Lemma repeat0_framed input m greedy gs c dir :
  (∀ x c', (endIndex x ≤ length input)%nat →
           answers_framed input dir 0 gs x c' (m x c')) →
  ∀ fuel x,
    (endIndex x ≤ length input)%nat → (remaining input dir x < fuel)%nat →
    answers_framed input dir 0 gs x c
      (repeat0 m greedy (clear_groups gs) c fuel x).
Proof.
  intros Hm fuel.
  induction fuel as [|fuel IH]; intros x Hx Hfuel; [lia|].
  cbn [repeat0].
  assert (answers_framed input dir 0 gs x c (c x)) as Hstop.
  { right. exists x. split; [by apply framed_refl | done]. }
  match goal with
  | |- context [m (clear_groups gs x) ?d'] => set (d := d')
  end.
  assert (answers_framed input dir 0 gs x c (m (clear_groups gs x) d))
    as Hmore.
  { apply (answers_framed_weaken input dir (0 + 0) 0 (gs ++ gs) gs);
      [lia | apply subseteq_app_same |].
    apply (answers_framed_chain input dir 0 0 gs gs x c d _ Hx).
    - apply (answers_framed_from input dir 0 gs x (clear_groups gs x));
        [done | by apply lookup_clear_groups | by apply Hm].
    - intros y Hvalid [Hy _]. unfold d.
      destruct (Nat.eqb_spec (endIndex y) (endIndex x)) as [|Hne];
        [by left|].
      apply IH; [done|]. revert Hy Hfuel. destruct dir; simpl; lia. }
  destruct greedy; by apply answers_framed_or_else.
Qed.

(** A matcher leaves the captures of the groups outside its pattern as
    they are. *)
Lemma matcher_framed input r dir x c :
  (endIndex x ≤ length input)%nat →
  answers_framed input dir (min_len r) (groups_of r) x c
    (matcher input r dir x c).
Proof.
  revert dir x c.
  induction r as [|ch| |cs| |r1 IH1 r2 IH2|r1 IH1 r2 IH2|greedy r1 IH1
                 |r1 IH1|n r1 IH1|r1 IH1];
    intros dir x c Hx; cbn [matcher min_len groups_of].
  - right. exists x. split; [by apply framed_refl | done].
  - apply char_set_matcher_framed.
  - apply char_set_matcher_framed.
  - apply char_set_matcher_framed.
  - destruct (Nat.eqb (endIndex x) 0); [|by left].
    right. exists x. split; [by apply framed_refl | done].
  - destruct dir.
    + apply (answers_framed_chain _ _ _ _ _ _ x c _ _ Hx (IH1 _ _ _ Hx)).
      intros y Hy _. by apply IH2.
    + apply (answers_framed_weaken input Backward
               (min_len r2 + min_len r1) _ (groups_of r2 ++ groups_of r1));
        [lia | apply subseteq_app_swap |].
      apply (answers_framed_chain _ _ _ _ _ _ x c _ _ Hx (IH2 _ _ _ Hx)).
      intros y Hy _. by apply IH1.
  - apply answers_framed_or_else.
    + eapply answers_framed_weaken; [| |by apply IH1];
        [lia | apply subseteq_app_left].
    + eapply answers_framed_weaken; [| |by apply IH2];
        [lia | apply subseteq_app_right].
  - apply (answers_framed_weaken input dir (min_len r1 + 0) _
             (groups_of r1 ++ groups_of r1));
      [lia | apply subseteq_app_same |].
    apply (answers_framed_chain input dir _ _ _ _ x c
             (repeat0 (matcher input r1 dir) greedy
                (clear_groups (groups_of r1)) c (S (length input))) _ Hx).
    + apply (answers_framed_from input dir _ _ x
               (clear_groups (groups_of r1) x));
        [done | by apply lookup_clear_groups | by apply IH1].
    + intros y Hy _. apply repeat0_framed; [| done |].
      * intros x' c' Hx'.
        eapply answers_framed_weaken; [| |by apply IH1]; [lia | done].
      * destruct dir; simpl; lia.
  - match goal with
    | |- context [matcher input r1 dir _ ?d'] => set (d := d')
    end.
    apply answers_framed_or_else.
    + apply (answers_framed_weaken input dir (0 + 0) _
               (groups_of r1 ++ [])); [lia | apply subseteq_app_nil |].
      apply (answers_framed_chain input dir 0 0 _ _ x c d _ Hx).
      * apply (answers_framed_from input dir _ _ x
                 (clear_groups (groups_of r1) x));
          [done | by apply lookup_clear_groups |].
        eapply answers_framed_weaken; [| |by apply IH1]; [lia | done].
      * intros y Hvalid Hy. unfold d. destruct (Nat.eqb _ _); [by left|].
        right. exists y. split; [by apply framed_refl | done].
    + right. exists x. split; [by apply framed_refl | done].
  - match goal with
    | |- context [matcher input r1 dir x ?c''] =>
        destruct (IH1 dir x c'') as [->|(y & [Hy Hc] & ->)];
          [done | by left |]
    end.
    right. eexists. split; [|done]. split.
    + by apply (ahead_same_index input dir _ x x y).
    + intros k [Hne Hk]%not_elem_of_cons. simpl.
      rewrite lookup_insert_ne by done. by apply Hc.
  - destruct (IH1 Backward x Matched Hx) as [->|(y & [Hy Hc] & ->)];
      [by left|].
    right. eexists. split; [|done]. split.
    + apply (ahead_same_index input dir 0 x x x); [done | done |].
      by apply ahead_refl.
    + done.
Qed.

Lemma matcher_sets_target input r x c :
  (endIndex x ≤ length input)%nat → sets_target r = true →
  matcher input r Forward x c = Failure
  ∨ ∃ y, ahead input Forward (min_len r) x y ∧ has_target input y
         ∧ matcher input r Forward x c = c y.
Proof.
  revert x c.
  induction r as [|ch| |cs| |r1 IH1 r2 IH2|r1 IH1 r2 IH2|greedy r1 IH1
                 |r1 IH1|n r1 IH1|r1 IH1];
    intros x c Hx Hsets; try done; cbn [matcher min_len].
  - (* a sequence *)
    cbn [sets_target] in Hsets.
    apply orb_prop in Hsets as [[Hsets Hfree]%andb_prop|Hsets].
    + apply negb_true_iff, bool_decide_eq_false in Hfree.
      destruct (IH1 x (λ y, matcher input r2 Forward y c) Hx Hsets)
        as [->|(y & Hy & (s & e & Hrange & Hse) & ->)]; [by left|].
      destruct (matcher_framed input r2 Forward y c)
        as [->|(y' & [Hy' Hc] & ->)];
        [by eapply ahead_valid | by left |].
      right. exists y'. split; [by eapply ahead_trans|]. split; [|done].
      exists s, e. by rewrite Hc.
    + destruct (matcher_answers input r1 Forward x
                  (λ y, matcher input r2 Forward y c) Hx)
        as [->|(y & Hy & ->)]; [by left|].
      destruct (IH2 y c) as [->|(y' & Hy' & Htarget & ->)];
        [by eapply ahead_valid | done | by left |].
      right. exists y'. split; [by eapply ahead_trans | done].
  - (* group 1 *)
    cbn [sets_target] in Hsets.
    apply andb_prop in Hsets as [->%Nat.eqb_eq Hlen%Nat.leb_le].
    match goal with
    | |- context [matcher input r1 Forward x ?c''] =>
        destruct (matcher_answers input r1 Forward x c'' Hx)
          as [->|(y & Hy & ->)]; [by left|]
    end.
    right. eexists. split; [|split; [|done]].
    + by apply (ahead_same_index input Forward _ x x y).
    + exists (endIndex x), (endIndex y). simpl.
      rewrite lookup_insert_eq. split; [done|]. simpl in Hy. lia.
Qed.

Lemma length_string_of_list_ascii l :
  String.length (string_of_list_ascii l) = length l.
Proof. induction l as [|ch l IH]; simpl; [done | by rewrite IH]. Qed.

Lemma length_list_ascii_of_string str :
  length (list_ascii_of_string str) = String.length str.
Proof. induction str as [|ch str IH]; simpl; [done | by rewrite IH]. Qed.

(** A match that [exec] finds for such a pattern starts inside the input
    and has a first group that is not empty. *)
Lemma exec_from_target input re steps lastIndex regExResult lastIndex' :
  sets_target re = true → (1 ≤ min_len re)%nat →
  (lastIndex + steps ≤ S (length input))%nat →
  exec_from input re lastIndex steps = Some (Some regExResult, lastIndex') →
  (RegExp.index regExResult < length input)%nat
  ∧ (lastIndex' ≤ length input)%nat
  ∧ ∃ target, groups regExResult !! 1%nat = Some target ∧ target ≠ "".
Proof.
  intros Hsets Hlen. revert lastIndex.
  induction steps as [|steps IH]; intros lastIndex Hsteps; [done|].
  cbn [exec_from].
  destruct (matcher_sets_target input re (mkState lastIndex ∅) Matched)
    as [->|(y & Hy & (s & e & Hrange & Hse) & ->)]; [simpl; lia | done | |].
  - apply IH. lia.
  - intros [= <- <-]. simpl in Hy. simpl. split; [lia|]. split; [lia|].
    exists (substring_of input (s, e)). rewrite lookup_fmap, Hrange.
    split; [done|]. intros Hempty.
    assert (String.length (substring_of input (s, e)) = 0%nat) as Hzero
      by (by rewrite Hempty).
    unfold substring_of in Hzero. simpl in Hzero.
    rewrite length_string_of_list_ascii, length_take, length_drop in Hzero.
    lia.
Qed.

Lemma exec_loop_targets input fuel re ty lastIndex linksWithIndex result :
  sets_target re = true → (1 ≤ min_len re)%nat →
  (lastIndex ≤ length input)%nat →
  Forall (link_in_text (length input)) linksWithIndex →
  Source.exec_loop fuel re ty input lastIndex linksWithIndex = Some result →
  Forall (link_in_text (length input)) result.
Proof.
  intros Hsets Hlen. revert lastIndex linksWithIndex.
  induction fuel as [|fuel IH]; intros lastIndex links Hlast Hlinks; [done|].
  cbn [Source.exec_loop]. unfold exec.
  destruct (exec_from input re lastIndex (S (length input) - lastIndex))
    as [[[regExResult|] lastIndex']|] eqn:Hexec; [| by intros [= <-] | done].
  assert (lastIndex + (S (length input) - lastIndex) ≤ S (length input))%nat
    as Hsteps by lia.
  destruct (exec_from_target input re _ _ _ _ Hsets Hlen Hsteps Hexec)
    as (Hindex & Hlast' & target & Htarget & Hne).
  apply IH; [done|]. apply Forall_app. split; [done|].
  apply Forall_singleton. split; [simpl; lia|]. by exists target.
Qed.

Lemma scan_targets re ty strs linksWithIndex result :
  sets_target re = true → (1 ≤ min_len re)%nat →
  Forall (link_in_text (String.length strs)) linksWithIndex →
  Source.scan re ty strs linksWithIndex = Some result →
  Forall (link_in_text (String.length strs)) result.
Proof.
  intros Hsets Hlen. unfold Source.scan.
  rewrite <- (length_list_ascii_of_string strs).
  apply exec_loop_targets; [done | done | lia].
Qed.

End SourceMore.

Section SourceTargets.

(** X18. Every hint of the raw-text locator starts inside the text and
    has a link text, which is not empty: no hint is made with an undefined
    target. *)
Theorem getSourceLinkHints_targets (cmEditor : Source.Editor)
    (hs : list SourceLinkHint) (h : SourceLinkHint) :
  Source.getSourceLinkHints cmEditor = Some hs → h ∈ hs →
  0 ≤ index h < Z.of_nat (String.length (Source.getValue cmEditor))
  ∧ ∃ target, linkText h = Some target ∧ target ≠ "".
Proof.
  unfold Source.getSourceLinkHints. intros Hhs Hh.
  destruct (Source.scan Source.regExInternal _ _ _) as [l1|] eqn:H1;
    [|done].
  cbn [mbind option_bind] in Hhs.
  destruct (Source.scan Source.regExExternal _ _ _) as [l2|] eqn:H2;
    [|done].
  cbn [mbind option_bind] in Hhs.
  destruct (Source.scan Source.regExUrl _ _ _) as [l3|] eqn:H3; [|done].
  cbn [mbind option_bind] in Hhs. injection Hhs as <-.
  apply scan_targets in H1; [| done | simpl; lia | constructor].
  apply scan_targets in H2; [| done | simpl; lia | done].
  apply scan_targets in H3; [| done | simpl; lia | done].
  apply elem_of_lookup_imap_1 in Hh as (i & link & -> & Hlink).
  apply list_elem_of_lookup_2 in Hlink.
  rewrite sort_Permutation in Hlink.
  rewrite Forall_forall in H3. by apply H3.
Qed.

Lemma getSourceLinkHints_targets_witness :
  Source.getSourceLinkHints (Source.mkEditor Examples.text)
  = Some hints_of_text
  ∧ third_hint ∈ hints_of_text
  ∧ 0 ≤ index third_hint
      < Z.of_nat (String.length
                    (Source.getValue (Source.mkEditor Examples.text)))
  ∧ ∃ target, linkText third_hint = Some target ∧ target ≠ "".
Proof.
  assert (Source.getSourceLinkHints (Source.mkEditor Examples.text)
          = Some hints_of_text) as Hhints by (vm_compute; reflexivity).
  assert (third_hint ∈ hints_of_text) as Hin
    by (apply list_elem_of_In; vm_compute; tauto).
  split; [exact Hhints|]. split; [exact Hin|].
  exact (getSourceLinkHints_targets (Source.mkEditor Examples.text)
           hints_of_text third_hint Hhints Hin).
Defined.

End SourceTargets.

(** ** Sessions from activation to resolution *)

Section SessionMore.

Lemma located_allocated currentView hints :
  located currentView = Some hints → allocated hints.
Proof.
  destruct currentView as [previewViewEl|cmEditor|]; simpl.
  - intros [= <-] j h. rewrite list_lookup_fmap, length_fmap.
    intros (x & Hx & ->)%fmap_Some. revert Hx.
    unfold Preview.getPreviewLinkHints. cbv zeta. rewrite length_imap.
    by intros (y & _ & ->)%list_lookup_imap_Some.
  - intros (hs & (links & ->)%getSourceLinkHints_Some & ->)%fmap_Some j h.
    rewrite list_lookup_fmap, length_fmap, length_imap.
    intros (x & (y & _ & ->)%list_lookup_imap_Some & ->)%fmap_Some. simpl.
    do 3 f_equal. apply Permutation_length. symmetry. apply sort_Permutation.
  - by intros [= <-] j h.
Qed.

(** What the activation command does when no session is active: nothing
    when no link is found; otherwise it adds elements to the document, all
    popovers in the mode [popovers], the wrapper and the modal in the mode
    [modal], and arms a session on the hints found. *)
Lemma handleJumpToLink_idle currentView w hints :
  isLinkHintActive w = false → located currentView = Some hints →
  (hints = [] → handleJumpToLink currentView w = Some w)
  ∧ (hints ≠ [] →
     ∃ els,
       handleJumpToLink currentView w
       = Some (activateLinkHints hints
                 (set_document (document w ++ els)%list w))
       ∧ els ≠ []
       ∧ match mode (settings w) with
         | popovers => Forall (λ e, is_popover e = true) els
         | modal =>
             ∃ content,
               els = [ mkElement "" [] [] InBody;
                       mkElement "jl-modal" ["modal-container"] content
                                 InBody ]
         end).
Proof.
  intros Hidle Hlocated. unfold handleJumpToLink. rewrite Hidle.
  destruct currentView as [previewViewEl|cmEditor|]; simpl in Hlocated.
  - injection Hlocated as <-. unfold managePreviewLinkHints.
    destruct (Preview.getPreviewLinkHints previewViewEl) as [|h hs] eqn:Hhs;
      [by split|].
    split; [done|]. intros _. cbn [length Nat.ltb Nat.leb].
    destruct (mode (settings w)).
    + eexists. split; [reflexivity|]. split; [done|].
      by apply Forall_fmap, Forall_true.
    + eexists. split; [reflexivity|]. split; [done|]. by eexists.
  - apply fmap_Some in Hlocated as (hs & Hhs & ->).
    unfold manageSourceLinkHints. rewrite Hhs. cbn [mbind option_bind].
    destruct hs as [|h hs]; [by split|].
    split; [done|]. intros _. cbn [length Nat.ltb Nat.leb].
    destruct (mode (settings w)).
    + eexists. split; [reflexivity|]. split; [done|].
      by apply Forall_fmap, Forall_true.
    + eexists. split; [reflexivity|]. split; [done|]. by eexists.
  - injection Hlocated as <-. by split.
Qed.

(** X12. From activation to navigation: when no session is active and the
    activation command finds hints in the view, it arms a session, and
    typing the label of any of the hints (one key, or the prefix key and
    then the second key) opens exactly that hint, once, and ends the
    session. *)
Theorem typing_a_label_opens_its_hint (currentView : View) (w : World)
    (hints : list LinkHintBase) (i : nat) (h : LinkHintBase)
    (label : string) (shift : bool) :
  Idle w → located currentView = Some hints →
  hints !! i = Some h → letter h = Some label →
  ∃ w0,
    handleJumpToLink currentView w = Some w0
    ∧ isLinkHintActive w0 = true
    ∧ hostCalls (type_label label shift w0)
      = (hostCalls w ++ [navigation shift h])%list
    ∧ Idle (type_label label shift w0).
Proof.
  intros (Hidle & Hnone & Hinfo) Hlocated Hh Hlabel.
  destruct (handleJumpToLink_idle currentView w hints Hidle Hlocated)
    as [_ Harmed].
  destruct Harmed as (els & -> & _); [by intros ->|].
  eexists. split; [done|]. split; [done|].
  apply (typing_label hints (set_document (document w ++ els)%list w) i h
           label shift); try done.
  by eapply located_allocated.
Qed.

Lemma typing_a_label_opens_its_hint_witness :
  Idle Examples.idle
  ∧ located (source (Source.mkEditor Examples.text))
    = Some (map source_base hints_of_text)
  ∧ map source_base hints_of_text !! 1%nat
    = Some (mkHint (Some "B") (Some "http://x.com") external)
  ∧ letter (mkHint (Some "B") (Some "http://x.com") external) = Some "B"
  ∧ ∃ w0,
      handleJumpToLink (source (Source.mkEditor Examples.text)) Examples.idle
      = Some w0
      ∧ isLinkHintActive w0 = true
      ∧ hostCalls (type_label "B" true w0)
        = (hostCalls Examples.idle
             ++ [navigation true
                   (mkHint (Some "B") (Some "http://x.com") external)])%list
      ∧ Idle (type_label "B" true w0).
Proof.
  assert (Idle Examples.idle) as Hidle by (repeat split).
  assert (located (source (Source.mkEditor Examples.text))
          = Some (map source_base hints_of_text)) as Hlocated
    by (vm_compute; reflexivity).
  assert (map source_base hints_of_text !! 1%nat
          = Some (mkHint (Some "B") (Some "http://x.com") external))
    as Hlookup by reflexivity.
  assert (letter (mkHint (Some "B") (Some "http://x.com") external)
          = Some "B") as Hletter by reflexivity.
  split; [exact Hidle|]. split; [exact Hlocated|].
  split; [exact Hlookup|]. split; [exact Hletter|].
  exact (typing_a_label_opens_its_hint
           (source (Source.mkEditor Examples.text)) Examples.idle
           (map source_base hints_of_text) 1
           (mkHint (Some "B") (Some "http://x.com") external) "B" true
           Hidle Hlocated Hlookup Hletter).
Defined.

Lemma reachable_session_of_text : reachable session_of_text.
Proof.
  apply (reachable_step
           (Activate (source (Source.mkEditor Examples.text)))
           Examples.idle); [apply reachable_loaded|].
  vm_compute. reflexivity.
Qed.

Lemma reachable_after_session : reachable after_session.
Proof.
  apply (reachable_step (KeyDown "A" false) session_of_text);
    [apply reachable_session_of_text | reflexivity].
Qed.

(** X13. While no session is active, the plugin does not react to keys:
    in every state it can reach with the flag down, a keydown event is
    left unconsumed and the state unchanged. *)
Theorem idle_keys_are_ignored (w : World) (event : KeyboardEvent) :
  reachable w → isLinkHintActive w = false →
  dispatchKeyDown event w = (event, w).
Proof.
  intros Hw%single_session_reachable Hidle.
  unfold dispatchKeyDown. by rewrite (single_session_idle w Hw Hidle).
Qed.

Lemma idle_keys_are_ignored_witness :
  reachable after_session ∧ isLinkHintActive after_session = false
  ∧ dispatchKeyDown (keydown "B" false) after_session
    = (keydown "B" false, after_session).
Proof.
  assert (isLinkHintActive after_session = false) as Hidle
    by (vm_compute; reflexivity).
  split; [exact reachable_after_session|]. split; [exact Hidle|].
  exact (idle_keys_are_ignored after_session (keydown "B" false)
           reachable_after_session Hidle).
Defined.

Lemma located_total currentView : is_Some (located currentView).
Proof.
  destruct currentView as [previewViewEl|cmEditor|]; simpl; [by eexists| |by eexists].
  destruct (getSourceLinkHints_total cmEditor) as [hs ->]. by eexists.
Qed.

Lemma document_teardown f w :
  document (teardown f w) = cleaned (document w).
Proof. reflexivity. Qed.

Lemma document_handleHotkey newLeaf link w :
  document (handleHotkey newLeaf link w) = document w.
Proof. unfold handleHotkey. by destruct (type link). Qed.

(** A key press either leaves the session going, with the document as it
    is, or ends it, with the overlays removed. *)
Lemma press_document f w pressed shift :
  keydownListeners w = [f] →
  (keydownListeners (press pressed shift w) = [f]
   ∧ document (press pressed shift w) = document w
   ∧ isLinkHintActive (press pressed shift w) = isLinkHintActive w)
  ∨ (keydownListeners (press pressed shift w) = []
     ∧ isLinkHintActive (press pressed shift w) = false
     ∧ document (press pressed shift w) = cleaned (document w)).
Proof.
  intros Hf. rewrite (press_single f) by done.
  destruct (decide (pressed = "Shift")) as [->|Hkey].
  { left. by rewrite handleKeyDown_Shift. }
  assert (∀ w', keydownListeners w' = [f] → document w' = document w →
            keydownListeners (teardown f w') = []
            ∧ isLinkHintActive (teardown f w') = false
            ∧ document (teardown f w') = cleaned (document w)) as Hend.
  { intros w' Hf' Hdoc. rewrite keydownListeners_teardown by done.
    by rewrite document_teardown, Hdoc. }
  destruct (prefixInfo w) as [info|] eqn:Hinfo.
  { right. rewrite (handleKeyDown_pending f _ info) by done.
    destruct (linkHintMap f !! _); [|by apply Hend].
    apply Hend;
      [by rewrite keydownListeners_handleHotkey
      | apply document_handleHotkey]. }
  destruct (linkHintMap f !! toUpperCase pressed) as [link|] eqn:Hlink.
  { right. rewrite handleKeyDown_armed by (cbn; rewrite ?Hlink; eauto).
    cbn [key keydown]. rewrite Hlink.
    apply Hend;
      [by rewrite keydownListeners_handleHotkey
      | apply document_handleHotkey]. }
  destruct (decide (toUpperCase pressed ∈ prefixes_of (linkHintMap f))).
  - left. by rewrite handleKeyDown_prefix.
  - right. rewrite handleKeyDown_armed by (cbn; auto).
    cbn [key keydown]. rewrite Hlink. by apply Hend.
Qed.

Lemma type_keys_idle keys w :
  keydownListeners w = [] → type_keys keys w = w.
Proof.
  intros Hnone. induction keys as [|k keys IH]; [done|].
  unfold type_keys in *. simpl. by rewrite press_idle.
Qed.

Lemma type_keys_document f keys w :
  keydownListeners w = [f] → isLinkHintActive w = true →
  isLinkHintActive (type_keys keys w) = false →
  document (type_keys keys w) = cleaned (document w).
Proof.
  revert w. induction keys as [|[pressed shift] keys IH];
    intros w Hf Hactive Hended.
  - simpl in Hended. congruence.
  - change (type_keys ((pressed, shift) :: keys) w)
      with (type_keys keys (press pressed shift w)) in *.
    destruct (press_document f w pressed shift Hf)
      as [(Hf' & Hdoc & Hsame)|(Hnone & Hidle & Hdoc)].
    + rewrite <- Hdoc. apply IH; [done | congruence | done].
    + by rewrite type_keys_idle.
Qed.

Lemma filter_none {A} (P : A → bool) l :
  Forall (λ x, P x = false) l → List.filter P l = [].
Proof. induction 1 as [|x l Hx _ IH]; simpl; [done|]. by rewrite Hx. Qed.

Lemma filter_all {A} (P : A → bool) l :
  Forall (λ x, P x = true) l → List.filter P l = l.
Proof.
  induction 1 as [|x l Hx _ IH]; simpl; [done|]. by rewrite Hx, IH.
Qed.

Lemma cleaned_app els1 els2 :
  cleaned (els1 ++ els2) = (cleaned els1 ++ cleaned els2)%list.
Proof. unfold cleaned. by rewrite !List.filter_app. Qed.

Lemma cleaned_clean els :
  Forall (λ e, is_overlay e = false) els → cleaned els = els.
Proof.
  intros Hclean. unfold cleaned. rewrite (filter_all _ els).
  - apply filter_all. eapply Forall_impl; [done|].
    intros e [_ ->]%orb_false_elim. done.
  - eapply Forall_impl; [done|]. intros e [-> _]%orb_false_elim. done.
Qed.







(** X14. A session leaves the document as it found it, but for one thing:
    when the session has ended, whatever keys ended it, the popovers it
    added are gone, and of a modal the container is gone while the empty
    [div] that was appended to the body around it stays. *)
Theorem session_restores_document (currentView : View) (w w0 : World)
    (keys : list (string * bool)) :
  Idle w → Forall (λ e, is_overlay e = false) (document w) →
  handleJumpToLink currentView w = Some w0 → isLinkHintActive w0 = true →
  isLinkHintActive (type_keys keys w0) = false →
  document (type_keys keys w0)
  = (document w
       ++ match mode (settings w) with
          | popovers => []
          | modal => [mkElement "" [] [] InBody]
          end)%list.
Proof.
  intros (Hidle & Hnone & Hinfo) Hclean Hw0 Hactive Hended.
  destruct (located_total currentView) as [hints Hlocated].
  destruct (handleJumpToLink_idle currentView w hints Hidle Hlocated)
    as [Hnothing Harmed].
  destruct (decide (hints = [])) as [Hnil|Hsome].
  { rewrite (Hnothing Hnil) in Hw0. congruence. }
  destruct (Harmed Hsome) as (els & Heq & _ & Hels).
  rewrite Heq in Hw0. injection Hw0 as <-.
  rewrite (type_keys_document
             (mkListener (closures w)
                (foldl (λ m x, <[js_string (letter x) := x]> m) ∅ hints)));
    [| unfold activateLinkHints, addEventListener; simpl; by rewrite Hnone
     | done | done ].
  change (document (activateLinkHints hints _))
    with (document w ++ els)%list.
  rewrite cleaned_app, cleaned_clean by done. f_equal.
  destruct (mode (settings w)).
  - unfold cleaned. rewrite (filter_none _ els); [done|].
    eapply Forall_impl; [done|]. by intros e ->.
  - by destruct Hels as [content ->].
Qed.

Lemma session_restores_document_witness :
  Idle Examples.idle
  ∧ Forall (λ e, is_overlay e = false) (document Examples.idle)
  ∧ handleJumpToLink (source (Source.mkEditor Examples.text)) Examples.idle
    = Some session_of_text
  ∧ isLinkHintActive session_of_text = true
  ∧ isLinkHintActive (type_keys [("Shift", true); ("q", false)]
                         session_of_text) = false
  ∧ document (type_keys [("Shift", true); ("q", false)] session_of_text)
    = (document Examples.idle
         ++ match mode (settings Examples.idle) with
            | popovers => []
            | modal => [mkElement "" [] [] InBody]
            end)%list.
Proof.
  assert (Idle Examples.idle) as Hidle by (repeat split).
  assert (Forall (λ e, is_overlay e = false) (document Examples.idle))
    as Hclean by constructor.
  assert (handleJumpToLink (source (Source.mkEditor Examples.text))
            Examples.idle = Some session_of_text) as Hw0
    by (vm_compute; reflexivity).
  assert (isLinkHintActive session_of_text = true) as Hactive
    by (vm_compute; reflexivity).
  assert (isLinkHintActive (type_keys [("Shift", true); ("q", false)]
                              session_of_text) = false) as Hended
    by (vm_compute; reflexivity).
  split; [exact Hidle|]. split; [exact Hclean|]. split; [exact Hw0|].
  split; [exact Hactive|]. split; [exact Hended|].
  exact (session_restores_document
           (source (Source.mkEditor Examples.text)) Examples.idle
           session_of_text [("Shift", true); ("q", false)]
           Hidle Hclean Hw0 Hactive Hended).
Defined.

Lemma same_session_teardown f a b :
  same_session a b → same_session (teardown f a) (teardown f b).
Proof.
  intros (? & ? & ? & ? & ?). unfold same_session, teardown. simpl.
  repeat split; congruence.
Qed.

Lemma same_session_handleHotkey newLeaf link a b :
  same_session a b →
  same_session (handleHotkey newLeaf link a) (handleHotkey newLeaf link b).
Proof.
  intros (? & ? & ? & ? & ?). unfold same_session, handleHotkey.
  destruct (type link); simpl; repeat split; congruence.
Qed.

Lemma same_session_handleKeyDown f event a b :
  same_session a b →
  (handleKeyDown f event a).1 = (handleKeyDown f event b).1
  ∧ same_session (handleKeyDown f event a).2 (handleKeyDown f event b).2.
Proof.
  intros Hsame. pose proof Hsame as (Hactive & Hinfo & Hf & Hn & Hcalls).
  unfold handleKeyDown. destruct (String.eqb _ _); [done|].
  rewrite Hinfo.
  assert (∀ linkHint,
            (resolve f linkHint event a).1 = (resolve f linkHint event b).1
            ∧ same_session (resolve f linkHint event a).2
                           (resolve f linkHint event b).2) as Hresolve.
  { intros linkHint. unfold resolve. rewrite Hinfo. simpl. split; [done|].
    apply same_session_teardown.
    destruct linkHint; [by apply same_session_handleHotkey | done]. }
  destruct (prefixInfo b); [apply Hresolve|].
  destruct (negb _ && _); [|apply Hresolve].
  simpl. split; [done|]. unfold same_session. simpl.
  repeat split; congruence.
Qed.

Lemma same_session_invoke listeners event a b :
  same_session a b →
  (invoke listeners event a).1 = (invoke listeners event b).1
  ∧ same_session (invoke listeners event a).2 (invoke listeners event b).2.
Proof.
  revert event a b.
  induction listeners as [|f rest IH]; intros event a b Hsame; [done|].
  simpl. pose proof Hsame as (_ & _ & <- & _).
  destruct (existsb _ _); [|by apply IH].
  destruct (same_session_handleKeyDown f event a b Hsame) as [Hevent Hsame'].
  destruct (handleKeyDown f event a) as [ea wa].
  destruct (handleKeyDown f event b) as [eb wb]. simpl in *. subst eb.
  destruct (immediatePropagationStopped ea); [done|]. by apply IH.
Qed.

Lemma same_session_type_keys keys a b :
  same_session a b → same_session (type_keys keys a) (type_keys keys b).
Proof.
  revert a b. induction keys as [|[pressed shift] keys IH];
    intros a b Hsame; [done|].
  change (same_session (type_keys keys (press pressed shift a))
                       (type_keys keys (press pressed shift b))).
  apply IH. unfold press, dispatchKeyDown.
  pose proof Hsame as (_ & _ & <- & _). by apply same_session_invoke.
Qed.

Lemma same_session_activateLinkHints hints a b :
  same_session a b →
  same_session (activateLinkHints hints a) (activateLinkHints hints b).
Proof.
  intros (? & ? & ? & ? & ?). unfold same_session, activateLinkHints.
  simpl. repeat split; congruence.
Qed.

Lemma same_session_set_document els w : same_session (set_document els w) w.
Proof. by repeat split. Qed.

Lemma same_session_sym a b : same_session a b → same_session b a.
Proof. intros (? & ? & ? & ? & ?). by repeat split. Qed.

Lemma same_session_trans a b c :
  same_session a b → same_session b c → same_session a c.
Proof.
  intros (? & ? & ? & ? & ?) (? & ? & ? & ? & ?).
  unfold same_session. repeat split; congruence.
Qed.

Lemma same_session_handleJumpToLink currentView a b wa wb :
  same_session a b →
  handleJumpToLink currentView a = Some wa →
  handleJumpToLink currentView b = Some wb → same_session wa wb.
Proof.
  intros Hsame Ha Hb. pose proof Hsame as (Hactive & _).
  destruct (located_total currentView) as [hints Hlocated].
  destruct (isLinkHintActive a) eqn:Hidle.
  { unfold handleJumpToLink in Ha, Hb. rewrite <- Hactive in Hb.
    rewrite Hidle in Ha. by simplify_eq. }
  destruct (handleJumpToLink_idle currentView a hints Hidle Hlocated)
    as [Ha0 Ha1].
  destruct (handleJumpToLink_idle currentView b hints) as [Hb0 Hb1];
    [congruence | done |].
  destruct (decide (hints = [])) as [Hnil|Hsome].
  { rewrite (Ha0 Hnil) in Ha. rewrite (Hb0 Hnil) in Hb. by simplify_eq. }
  destruct (Ha1 Hsome) as (elsa & Heqa & _).
  destruct (Hb1 Hsome) as (elsb & Heqb & _).
  rewrite Heqa in Ha. rewrite Heqb in Hb. simplify_eq.
  apply same_session_activateLinkHints.
  eapply same_session_trans; [apply same_session_set_document|].
  eapply same_session_trans; [done|].
  apply same_session_sym, same_session_set_document.
Qed.

(** X15. The presentation mode changes what is shown and nothing else:
    activated in the same state but for the mode, on the same view, the
    session under [popovers] and the session under [modal] have the same
    listener and hint map, and every sequence of keys opens the same hints
    and leaves the same prefix and the same flag in both. *)
Theorem mode_does_not_change_selection (currentView : View)
    (w w1 w2 : World) (keys : list (string * bool)) :
  handleJumpToLink currentView (set_settings (mkSettings popovers) w)
  = Some w1 →
  handleJumpToLink currentView (set_settings (mkSettings modal) w)
  = Some w2 →
  keydownListeners w1 = keydownListeners w2
  ∧ hostCalls (type_keys keys w1) = hostCalls (type_keys keys w2)
  ∧ prefixInfo (type_keys keys w1) = prefixInfo (type_keys keys w2)
  ∧ isLinkHintActive (type_keys keys w1)
    = isLinkHintActive (type_keys keys w2).
Proof.
  intros H1 H2.
  assert (same_session w1 w2) as Hsame.
  { eapply (same_session_handleJumpToLink currentView); [|done|done].
    by repeat split. }
  pose proof (same_session_type_keys keys w1 w2 Hsame)
    as (Hactive & Hinfo & _ & _ & Hcalls).
  by destruct Hsame as (_ & _ & ? & _).
Qed.

Lemma mode_does_not_change_selection_witness :
  handleJumpToLink (source (Source.mkEditor Examples.text))
    (set_settings (mkSettings popovers) Examples.idle)
  = Some session_of_text
  ∧ handleJumpToLink (source (Source.mkEditor Examples.text))
      (set_settings (mkSettings modal) Examples.idle)
    = Some (default Examples.idle
              (handleJumpToLink (source (Source.mkEditor Examples.text))
                 (set_settings (mkSettings modal) Examples.idle)))
  ∧ keydownListeners session_of_text
    = keydownListeners
        (default Examples.idle
           (handleJumpToLink (source (Source.mkEditor Examples.text))
              (set_settings (mkSettings modal) Examples.idle)))
  ∧ hostCalls (type_keys [("c", true)] session_of_text)
    = hostCalls
        (type_keys [("c", true)]
           (default Examples.idle
              (handleJumpToLink (source (Source.mkEditor Examples.text))
                 (set_settings (mkSettings modal) Examples.idle))))
  ∧ prefixInfo (type_keys [("c", true)] session_of_text)
    = prefixInfo
        (type_keys [("c", true)]
           (default Examples.idle
              (handleJumpToLink (source (Source.mkEditor Examples.text))
                 (set_settings (mkSettings modal) Examples.idle))))
  ∧ isLinkHintActive (type_keys [("c", true)] session_of_text)
    = isLinkHintActive
        (type_keys [("c", true)]
           (default Examples.idle
              (handleJumpToLink (source (Source.mkEditor Examples.text))
                 (set_settings (mkSettings modal) Examples.idle)))).
Proof.
  assert (handleJumpToLink (source (Source.mkEditor Examples.text))
            (set_settings (mkSettings popovers) Examples.idle)
          = Some session_of_text) as H1 by (vm_compute; reflexivity).
  assert (handleJumpToLink (source (Source.mkEditor Examples.text))
            (set_settings (mkSettings modal) Examples.idle)
          = Some (default Examples.idle
                    (handleJumpToLink
                       (source (Source.mkEditor Examples.text))
                       (set_settings (mkSettings modal) Examples.idle))))
    as H2 by (vm_compute; reflexivity).
  split; [exact H1|]. split; [exact H2|].
  exact (mode_does_not_change_selection
           (source (Source.mkEditor Examples.text)) Examples.idle _ _
           [("c", true)] H1 H2).
Defined.

(** The invariant of the pending prefix, with that of the one session. *)
Lemma pending_prefix_invariant w :
  reachable w →
  single_session w
  ∧ ∀ info, prefixInfo w = Some info →
      ∃ f, keydownListeners w = [f] ∧ isLinkHintActive w = true
           ∧ linkHintMap f !! PrefixInfo.prefix info = None
           ∧ PrefixInfo.prefix info ∈ prefixes_of (linkHintMap f).
Proof.
  induction 1 as [s els|a w w' Hw [Hsingle Hpending] Hstep].
  { split; [apply single_session_loaded | done]. }
  split; [by eapply single_session_step|].
  assert (isLinkHintActive w = true ∨ isLinkHintActive w = false)
    as [Hactive|Hactive] by (destruct (isLinkHintActive w); auto).
  - (* a session is on *)
    destruct a as [currentView|pressed shift|value]; simpl in Hstep.
    + unfold handleJumpToLink in Hstep. rewrite Hactive in Hstep.
      by simplify_eq.
    + simplify_eq.
      destruct (single_session_active w Hsingle Hactive) as [f Hf].
      rewrite (press_single f) by done.
      destruct (decide (pressed = "Shift")) as [->|Hkey].
      { by rewrite handleKeyDown_Shift. }
      destruct (prefixInfo w) as [info|] eqn:Hinfo.
      { by rewrite (handleKeyDown_pending f _ info). }
      destruct (linkHintMap f !! toUpperCase pressed) as [link|] eqn:Hlink.
      { by rewrite handleKeyDown_armed by (cbn; rewrite ?Hlink; eauto). }
      destruct (decide (toUpperCase pressed ∈ prefixes_of (linkHintMap f))).
      * rewrite handleKeyDown_prefix by done. simpl.
        intros info [= <-]. exists f. by repeat split.
      * by rewrite handleKeyDown_armed by (cbn; auto).
    + by simplify_eq.
  - (* no session: no prefix, and neither activation nor a key sets one *)
    pose proof Hsingle as (_ & _ & Hnone). specialize (Hnone Hactive).
    destruct a as [currentView|pressed shift|value]; simpl in Hstep.
    + destruct (located_total currentView) as [hints Hlocated].
      destruct (handleJumpToLink_idle currentView w hints Hactive Hlocated)
        as [H0 H1].
      destruct (decide (hints = [])) as [Hnil|Hsome].
      * rewrite (H0 Hnil) in Hstep. by simplify_eq.
      * destruct (H1 Hsome) as (els & Heq & _). rewrite Heq in Hstep.
        simplify_eq. simpl. intros info. congruence.
    + simplify_eq. by rewrite press_idle by (by apply single_session_idle).
    + by simplify_eq.
Qed.

(** X16. A prefix is pending only inside a session, and only a real one:
    in every state the plugin can reach where a prefix is recorded, the
    flag is set, one listener is registered, and the prefix is no label of
    its map but the first character of a longer label of it. *)
Theorem pending_prefix_is_real (w : World) (info : PrefixInfo.t) :
  reachable w → prefixInfo w = Some info →
  ∃ f, keydownListeners w = [f] ∧ isLinkHintActive w = true
       ∧ linkHintMap f !! PrefixInfo.prefix info = None
       ∧ PrefixInfo.prefix info ∈ prefixes_of (linkHintMap f).
Proof.
  intros Hw Hinfo.
  destruct (pending_prefix_invariant w Hw) as [_ Hpending].
  exact (Hpending info Hinfo).
Qed.

Lemma reachable_pending_of_27 : reachable pending_of_27.
Proof.
  apply (reachable_step (KeyDown "a" false) session_of_27); [|reflexivity].
  apply (reachable_step
           (Activate (source (Source.mkEditor (text_of_links 27))))
           Examples.idle); [apply reachable_loaded|].
  vm_compute. reflexivity.
Qed.

Lemma pending_prefix_is_real_witness :
  reachable pending_of_27
  ∧ prefixInfo pending_of_27 = Some (PrefixInfo.mk "A" false)
  ∧ ∃ f, keydownListeners pending_of_27 = [f]
         ∧ isLinkHintActive pending_of_27 = true
         ∧ linkHintMap f !! PrefixInfo.prefix (PrefixInfo.mk "A" false)
           = None
         ∧ PrefixInfo.prefix (PrefixInfo.mk "A" false)
           ∈ prefixes_of (linkHintMap f).
Proof.
  assert (prefixInfo pending_of_27 = Some (PrefixInfo.mk "A" false))
    as Hinfo by (vm_compute; reflexivity).
  split; [exact reachable_pending_of_27|]. split; [exact Hinfo|].
  exact (pending_prefix_is_real pending_of_27 (PrefixInfo.mk "A" false)
           reachable_pending_of_27 Hinfo).
Defined.

Lemma toUpperCase_idemp str : toUpperCase (toUpperCase str) = toUpperCase str.
Proof.
  induction str as [|ch str IH]; simpl; [done|].
  by rewrite upper_upper_ascii, IH.
Qed.

Lemma toUpperCase_app str1 str2 :
  toUpperCase (str1 +:+ str2) = toUpperCase str1 +:+ toUpperCase str2.
Proof. induction str1 as [|ch str1 IH]; simpl; [done | by rewrite IH]. Qed.

(** The invariant of the hint map and of the case of the prefix, with
    that of the one session. *)
Lemma label_invariant w :
  reachable w →
  single_session w
  ∧ (∀ f k link, f ∈ keydownListeners w →
       linkHintMap f !! k = Some link → js_string (letter link) = k)
  ∧ ∀ info, prefixInfo w = Some info →
      toUpperCase (PrefixInfo.prefix info) = PrefixInfo.prefix info.
Proof.
  induction 1 as [s els|a w w' Hw (Hsingle & Hmap & Hupper) Hstep].
  { split; [apply single_session_loaded|]. split; [|done].
    intros f k link Hf. by apply elem_of_nil in Hf. }
  split; [by eapply single_session_step|].
  assert (isLinkHintActive w = true ∨ isLinkHintActive w = false)
    as [Hactive|Hactive] by (destruct (isLinkHintActive w); auto).
  - destruct a as [currentView|pressed shift|value]; simpl in Hstep.
    + unfold handleJumpToLink in Hstep. rewrite Hactive in Hstep.
      by simplify_eq.
    + simplify_eq.
      destruct (single_session_active w Hsingle Hactive) as [f Hf].
      assert (∀ w1, keydownListeners w1 = [f] →
                ∀ g k link, g ∈ keydownListeners (teardown f w1) →
                  linkHintMap g !! k = Some link →
                  js_string (letter link) = k) as Hended.
      { intros w1 Hf1 g k link.
        rewrite keydownListeners_teardown by done.
        intros Hg. by apply elem_of_nil in Hg. }
      rewrite (press_single f) by done.
      destruct (decide (pressed = "Shift")) as [->|Hkey].
      { by rewrite handleKeyDown_Shift. }
      destruct (prefixInfo w) as [info|] eqn:Hinfo.
      { rewrite (handleKeyDown_pending f _ info) by done.
        split; [|done]. apply Hended.
        destruct (linkHintMap f !! _);
          [by rewrite keydownListeners_handleHotkey | done]. }
      destruct (linkHintMap f !! toUpperCase pressed) as [link|] eqn:Hlink.
      { rewrite handleKeyDown_armed by (cbn; rewrite ?Hlink; eauto).
        cbn [key keydown]. rewrite Hlink. split; [|done]. apply Hended.
        by rewrite keydownListeners_handleHotkey. }
      destruct (decide (toUpperCase pressed ∈ prefixes_of (linkHintMap f))).
      * rewrite handleKeyDown_prefix by done. simpl. split; [done|].
        intros info [= <-]. simpl. apply toUpperCase_idemp.
      * rewrite handleKeyDown_armed by (cbn; auto).
        cbn [key keydown]. rewrite Hlink. split; [|done]. by apply Hended.
    + by simplify_eq.
  - pose proof Hsingle as (_ & _ & Hnone). specialize (Hnone Hactive).
    pose proof (single_session_idle w Hsingle Hactive) as Hlisteners.
    destruct a as [currentView|pressed shift|value]; simpl in Hstep.
    + destruct (located_total currentView) as [hints Hlocated].
      destruct (handleJumpToLink_idle currentView w hints Hactive Hlocated)
        as [H0 H1].
      destruct (decide (hints = [])) as [Hnil|Hsome].
      * rewrite (H0 Hnil) in Hstep. by simplify_eq.
      * destruct (H1 Hsome) as (els & Heq & _). rewrite Heq in Hstep.
        simplify_eq. split; [|simpl; intros info; congruence].
        intros f k link. unfold activateLinkHints, addEventListener. simpl.
        rewrite Hlisteners. intros ->%list_elem_of_singleton. simpl.
        by intros [_ ?]%hint_map_lookup_inv.
    + simplify_eq. by rewrite press_idle.
    + by simplify_eq.
Qed.

(** X21. A key press never opens a hint under another label than the one
    typed: in every state the plugin can reach, the hint that the map holds
    for the label a key completes has that label for its letter. A hint
    left without letter (beyond the 676 labels) is thus never opened. *)
Theorem opened_hint_has_typed_label (w : World) (f : Listener)
    (pressed : string) (link : LinkHintBase) :
  reachable w → keydownListeners w = [f] →
  linkHintMap f !! typed_label w pressed = Some link →
  letter link = Some (typed_label w pressed).
Proof.
  intros (_ & Hmap & Hupper)%label_invariant Hf Hlink.
  assert (toUpperCase (typed_label w pressed) = typed_label w pressed)
    as Hfixed.
  { unfold typed_label. destruct (prefixInfo w) as [info|] eqn:Hinfo.
    - by rewrite toUpperCase_app, toUpperCase_idemp, (Hupper info).
    - apply toUpperCase_idemp. }
  pose proof (Hmap f _ link ltac:(rewrite Hf; apply list_elem_of_here) Hlink)
    as Hkey.
  destruct (letter link) as [label|]; simpl in Hkey; [by subst|].
  rewrite <- Hkey in Hfixed. discriminate Hfixed.
Qed.

Lemma opened_hint_has_typed_label_witness :
  reachable session_of_text
  ∧ keydownListeners session_of_text
    = [mkListener 0
         (<["C" := mkHint (Some "C") (Some "https://y.com") external]>
            (<["B" := mkHint (Some "B") (Some "http://x.com") external]>
               (<["A" := mkHint (Some "A") (Some "Home") internal]> ∅)))]
  ∧ linkHintMap
      (mkListener 0
         (<["C" := mkHint (Some "C") (Some "https://y.com") external]>
            (<["B" := mkHint (Some "B") (Some "http://x.com") external]>
               (<["A" := mkHint (Some "A") (Some "Home") internal]> ∅))))
      !! typed_label session_of_text "c"
    = Some (mkHint (Some "C") (Some "https://y.com") external)
  ∧ letter (mkHint (Some "C") (Some "https://y.com") external)
    = Some (typed_label session_of_text "c").
Proof.
  assert (keydownListeners session_of_text
          = [mkListener 0
               (<["C" := mkHint (Some "C") (Some "https://y.com") external]>
                  (<["B" := mkHint (Some "B") (Some "http://x.com") external]>
                     (<["A" := mkHint (Some "A") (Some "Home") internal]>
                        ∅)))]) as Hf by (vm_compute; reflexivity).
  assert (linkHintMap
            (mkListener 0
               (<["C" := mkHint (Some "C") (Some "https://y.com") external]>
                  (<["B" := mkHint (Some "B") (Some "http://x.com") external]>
                     (<["A" := mkHint (Some "A") (Some "Home") internal]>
                        ∅))))
            !! typed_label session_of_text "c"
          = Some (mkHint (Some "C") (Some "https://y.com") external))
    as Hlink by (vm_compute; reflexivity).
  split; [exact reachable_session_of_text|]. split; [exact Hf|].
  split; [exact Hlink|].
  exact (opened_hint_has_typed_label session_of_text _ "c" _
           reachable_session_of_text Hf Hlink).
Defined.

End SessionMore.

